(** * prismix: merging Prisma schema fragments

    A shallow embedding of [src/lib/prismix.ts] and the properties of its
    merge algorithm.  The TypeScript is modelled as it is written:

    - [mixModels] keeps its accumulator in a plain JavaScript object
      ([const models: Record<string, Model> = {}]).  The object is modelled by
      its own properties in the order [Object.values] enumerates them, with
      the property lookup going through [Object.prototype] as it does in
      JavaScript;
    - exceptions are values of [Result]; a rejected promise that is awaited
      is a thrown exception;
    - the file system read and written by [prismix] is an explicit state. *)

From Stdlib Require Import List String Ascii NArith Bool Arith Lia.
From Stdlib Require Import Sorted Permutation Decimal DecimalString.
Import ListNotations.
Open Scope string_scope.
Open Scope list_scope.

(** ** Exceptions *)

Inductive Error : Type :=
| TypeError                    (* raised by the JavaScript runtime *)
| Rejected (reason : string).  (* a rejected promise of an external call *)

Inductive Result (T : Type) : Type :=
| Ok (v : T)
| Throw (e : Error).

Arguments Ok {T} v.
Arguments Throw {T} e.

Definition bind {T U : Type} (c : Result T) (k : T -> Result U) : Result U :=
  match c with
  | Ok v => k v
  | Throw e => Throw e
  end.

Declare Scope result_scope.
Delimit Scope result_scope with result.
Notation "x <- c ;; k" := (bind c (fun x => k))
  (at level 61, c at next level, right associativity) : result_scope.
Open Scope result_scope.

(** ** Data model

    [Model] is imported from [./deserializer]; [mixModels] reads its [name]
    and its [fields], and of a field only the [name].  Everything else a
    field or a model carries is kept as an opaque payload. *)

Record Field (P : Type) : Type := mkField {
  fname : string;
  payload : P
}.

Arguments mkField {P} fname payload.
Arguments fname {P} f.
Arguments payload {P} f.

Record Model (P A : Type) : Type := mkModel {
  name : string;
  fields : list (Field P);
  attrs : A
}.

Arguments mkModel {P A} name fields attrs.
Arguments name {P A} m.
Arguments fields {P A} m.
Arguments attrs {P A} m.

(** [existingModel.fields] is mutated in place: the model keeps its name and
    its other attributes. *)
Definition with_fields {P A : Type} (m : Model P A) (fs : list (Field P)) : Model P A :=
  mkModel (name m) fs (attrs m).

(** ** JavaScript arrays of field names *)

(** [names.includes(n)] *)
Fixpoint includes (names : list string) (n : string) : bool :=
  match names with
  | [] => false
  | x :: rest => String.eqb x n || includes rest n
  end.

(** [names.indexOf(n)]: the first index holding [n]; [None] stands for the
    [-1] JavaScript returns when there is none. *)
Fixpoint indexOf (names : list string) (n : string) : option nat :=
  match names with
  | [] => None
  | x :: rest =>
      if String.eqb x n then Some 0
      else match indexOf rest n with
           | Some i => Some (S i)
           | None => None
           end
  end.

(** [a[i] = x] for an index inside the array.  [mixModels] only assigns at an
    index [indexOf] found (see [indexOf_includes] and [reconcile_length]);
    beyond the end JavaScript would extend the array, which a list of fields
    cannot show, and the list is left as it is there. *)
Fixpoint array_set {T : Type} (a : list T) (i : nat) (x : T) : list T :=
  match a, i with
  | [], _ => []
  | _ :: rest, O => x :: rest
  | y :: rest, S j => y :: array_set rest j x
  end.

(** ** Plain JavaScript objects used as a map *)

(** The property names every object literal inherits from [Object.prototype].
    [models[k]] finds them when [models] has no own property [k]. *)
Definition Object_prototype_keys : list string :=
  [ "constructor"; "__defineGetter__"; "__defineSetter__"; "hasOwnProperty";
    "__lookupGetter__"; "__lookupSetter__"; "isPrototypeOf";
    "propertyIsEnumerable"; "toString"; "valueOf"; "__proto__";
    "toLocaleString" ].

Definition inherited (k : string) : bool := includes Object_prototype_keys k.

(** A property key is an array index when it is the canonical decimal
    spelling of an integer below [2^32 - 1] (ECMAScript: ToString(ToUint32(k))
    is [k] and the value is not [2^32 - 1]). *)
Definition array_index (k : string) : option N :=
  match NilZero.uint_of_string k with
  | Some u =>
      let n := N.of_uint u in
      if String.eqb (NilZero.string_of_uint (N.to_uint n)) k && (n <? 4294967295)%N
      then Some n
      else None
  | None => None
  end.

Definition is_index (k : string) : bool :=
  match array_index k with
  | Some _ => true
  | None => false
  end.

Section JSObject.

Context {V : Type}.

(** The own properties of an object, in the order of
    OrdinaryOwnPropertyKeys: array indices in ascending numeric order, then
    the other string keys in the order they were created. *)
Definition JSObject : Type := list (string * V).

Fixpoint own (o : JSObject) (k : string) : option V :=
  match o with
  | [] => None
  | (k', v) :: rest => if String.eqb k' k then Some v else own rest k
  end.

(** What [o[k]] evaluates to. *)
Inductive Lookup : Type :=
| Own (v : V)        (* an own property *)
| Builtin            (* a function or object found on [Object.prototype] *)
| Undefined.

Definition obj_get (o : JSObject) (k : string) : Lookup :=
  match own o k with
  | Some v => Own v
  | None => if inherited k then Builtin else Undefined
  end.

(** Assigning to an own property keeps its place in the key order. *)
Fixpoint obj_replace (o : JSObject) (k : string) (v : V) : JSObject :=
  match o with
  | [] => []
  | (k', v') :: rest =>
      if String.eqb k' k then (k', v) :: rest
      else (k', v') :: obj_replace rest k v
  end.

(** A new array-index key goes before the first key that is not a smaller
    array index. *)
Fixpoint obj_insert_index (o : JSObject) (k : string) (i : N) (v : V) : JSObject :=
  match o with
  | [] => [(k, v)]
  | (k', v') :: rest =>
      match array_index k' with
      | Some j =>
          if (j <? i)%N then (k', v') :: obj_insert_index rest k i v
          else (k, v) :: o
      | None => (k, v) :: o
      end
  end.

(** [o[k] = v] for a key that is an own property of [o] or that is not
    found at all; [mixModels] assigns in no other case. *)
Definition obj_set (o : JSObject) (k : string) (v : V) : JSObject :=
  match own o k with
  | Some _ => obj_replace o k v
  | None =>
      match array_index k with
      | Some i => obj_insert_index o k i v
      | None => o ++ [(k, v)]
      end
  end.

(** [Object.values(o)] *)
Definition Object_values (o : JSObject) : list V := map snd o.

(** [Object.keys(o)] *)
Definition Object_keys (o : JSObject) : list string := map fst o.

End JSObject.

Arguments JSObject V : clear implicits.
Arguments Lookup V : clear implicits.

(** ** The Entity Merger: [mixModels]

    [inputModels] is a list of model values.  In the source the mapping holds
    the input objects themselves and [existingModel.fields] is updated in
    place; the values below are what these objects hold when the elements of
    [inputModels] are pairwise distinct objects, which is how [getSchema]
    builds them (a fresh DMMF per input path). *)

Section MixModels.

Context {P A : Type}.

(** The body of [for (const newField of newModel.fields)]:
    [existingFieldNames] is the list computed once before the loop, [fs] is
    [existingModel.fields] as the loop has left it so far. *)
Definition reconcile (existingFieldNames : list string) (fs : list (Field P))
    (newField : Field P) : list (Field P) :=
  if includes existingFieldNames (fname newField) then
    match indexOf existingFieldNames (fname newField) with
    | Some existingFieldIndex => array_set fs existingFieldIndex newField
    | None => fs
    end
  else fs ++ [newField].

(** The [if (existingModel)] branch: the fields of [newModel] merged into
    [existingModel]. *)
Definition merge_fields (existingModel newModel : Model P A) : Model P A :=
  let existingFieldNames := map fname (fields existingModel) in
  with_fields existingModel
    (fold_left (reconcile existingFieldNames) (fields newModel)
       (fields existingModel)).

(** The body of [for (const newModel of inputModels)].  An inherited
    property is truthy and has no [fields]: [existingModel.fields.map]
    throws a TypeError. *)
Definition mix_step (models : JSObject (Model P A)) (newModel : Model P A)
    : Result (JSObject (Model P A)) :=
  match obj_get models (name newModel) with
  | Own existingModel =>
      Ok (obj_set models (name newModel) (merge_fields existingModel newModel))
  | Builtin => Throw TypeError
  | Undefined => Ok (obj_set models (name newModel) newModel)
  end.

Fixpoint mix_loop (models : JSObject (Model P A)) (inputModels : list (Model P A))
    : Result (JSObject (Model P A)) :=
  match inputModels with
  | [] => Ok models
  | newModel :: rest =>
      models' <- mix_step models newModel ;;
      mix_loop models' rest
  end.

Definition mixModels (inputModels : list (Model P A)) : Result (list (Model P A)) :=
  models <- mix_loop [] inputModels ;;
  Ok (Object_values models).

(** The Entity Merger as the specification gives its contract,
    [merge(entityLists)]: the entity lists are scanned in fragment order,
    each in its own order, with one mapping kept across all of them.  One
    entity is treated as the code treats it ([mix_step]). *)
Fixpoint merge_loop (models : JSObject (Model P A))
    (entityLists : list (list (Model P A))) : Result (JSObject (Model P A)) :=
  match entityLists with
  | [] => Ok models
  | entities :: rest =>
      models' <- mix_loop models entities ;;
      merge_loop models' rest
  end.

Definition merge (entityLists : list (list (Model P A))) : Result (list (Model P A)) :=
  models <- merge_loop [] entityLists ;;
  Ok (Object_values models).

End MixModels.

(** ** The Section Reducer

    The two reductions are written inline in [prismix], each as a [forEach]
    over [schemasToMix] that updates a local variable. *)

Section Reducers.

Context {T : Type}.

(** [schemasToMix.forEach((schema) => !!schema.enums && (enums = [...enums,
    ...schema.enums]))], over the [enums] of the schemas; [None] is an
    [enums] that is undefined or null. *)
Definition reduceEnums (lists : list (option (list T))) : list T :=
  fold_left
    (fun enums schema_enums =>
       match schema_enums with
       | Some es => enums ++ es
       | None => enums
       end)
    lists [].

(** [schemasToMix.forEach((schema) => schema.datasources.length > 0 &&
    (datasources = schema.datasources))], and the same for [generators]. *)
Definition reduceSingletons (lists : list (list T)) : list T :=
  fold_left
    (fun acc l => if (0 <? List.length l)%nat then l else acc)
    lists [].

End Reducers.

(** ** The Composition Orchestrator: [prismix] *)

Record MixerOptions : Type := mkMixerOptions {
  input : list string;
  output : string
}.

Record PrismixOptions : Type := mkPrismixOptions {
  mixers : list MixerOptions
}.

(** What [getSchema] returns. *)
Record Schema (P A E D G : Type) : Type := mkSchema {
  models : list (Model P A);
  enums : option (list E);
  datasources : list D;
  generators : list G
}.

Arguments mkSchema {P A E D G} models enums datasources generators.
Arguments models {P A E D G} s.
Arguments enums {P A E D G} s.
Arguments datasources {P A E D G} s.
Arguments generators {P A E D G} s.

(** The line feed of ['\n']. *)
Definition LF : string := String "010"%char EmptyString.

(** The separator of [.join('\n\n\n')]. *)
Definition separator : string := (LF ++ LF ++ LF)%string.

(** [array.join(sep)] on an array of strings. *)
Fixpoint join (sep : string) (parts : list string) : string :=
  match parts with
  | [] => EmptyString
  | [p] => p
  | p :: rest => (p ++ sep ++ join sep rest)%string
  end.

(** A string is truthy when it is not empty: [.filter((e) => e)]. *)
Definition truthy (e : string) : bool := negb (String.eqb e EmptyString).

Section Orchestrator.

Context {P A E D G World : Type}.

(** The outside of the program: the file system (a state of type [World]),
    the Prisma SDK and the renderers of [./deserializer].  A rejected promise
    is a [Throw]. *)
Variable resolve : string -> string.          (* path.join(process.cwd(), p) *)
Variable readFile : World -> string -> Result string.
Variable writeFile : World -> string -> string -> World * Result unit.
Variable getDMMF : string -> Result (list (Model P A) * option (list E)).
Variable getConfig : string -> Result (list D * list G).
Variable deserializeDatasources : list D -> Result string.
Variable deserializeGenerators : list G -> Result string.
Variable deserializeModels : list (Model P A) -> Result string.
Variable deserializeEnums : list E -> Result string.

(** An asynchronous computation on the file system. *)
Definition IO (T : Type) : Type := World -> World * Result T.

Definition getSchema (schemaPath : string) : IO (Schema P A E D G) :=
  fun w =>
    (w,
     schema <- readFile w (resolve schemaPath) ;;
     dmmf <- getDMMF schema ;;
     config <- getConfig schema ;;
     Ok (mkSchema (fst dmmf) (snd dmmf) (fst config) (snd config))).

(** [for (const input of mixer.input) schemasToMix.push(await getSchema(input))] *)
Fixpoint load_schemas (inputs : list string) (schemasToMix : list (Schema P A E D G))
    : IO (list (Schema P A E D G)) :=
  fun w =>
    match inputs with
    | [] => (w, Ok schemasToMix)
    | i :: rest =>
        match getSchema i w with
        | (w', Ok schema) => load_schemas rest (schemasToMix ++ [schema]) w'
        | (w', Throw e) => (w', Throw e)
        end
    end.

(** [for (const schema of schemasToMix) models = [...models, ...schema.models]] *)
Definition all_models (schemasToMix : list (Schema P A E D G)) : list (Model P A) :=
  fold_left (fun ms schema => ms ++ models schema) schemasToMix [].

(** From the loaded schemas to [outputSchema]. *)
Definition compose (schemasToMix : list (Schema P A E D G)) : Result string :=
  ms <- mixModels (all_models schemasToMix) ;;
  let es := reduceEnums (map enums schemasToMix) in
  let ds := reduceSingletons (map datasources schemasToMix) in
  let gs := reduceSingletons (map generators schemasToMix) in
  r1 <- deserializeDatasources ds ;;
  r2 <- deserializeGenerators gs ;;
  r3 <- deserializeModels ms ;;
  r4 <- deserializeEnums es ;;
  Ok (join separator (filter truthy [r1; r2; r3; r4])).

(** The body of [for (const mixer of options.mixers)]. *)
Definition mix (mixer : MixerOptions) : IO unit :=
  fun w =>
    match load_schemas (input mixer) [] w with
    | (w', Ok schemasToMix) =>
        match compose schemasToMix with
        | Ok outputSchema => writeFile w' (resolve (output mixer)) outputSchema
        | Throw e => (w', Throw e)
        end
    | (w', Throw e) => (w', Throw e)
    end.

Fixpoint mix_all (ms : list MixerOptions) : IO unit :=
  fun w =>
    match ms with
    | [] => (w, Ok tt)
    | mixer :: rest =>
        match mix mixer w with
        | (w', Ok _) => mix_all rest w'
        | (w', Throw e) => (w', Throw e)
        end
    end.

Definition prismix (options : PrismixOptions) : IO unit :=
  mix_all (mixers options).

End Orchestrator.

(** ** Vocabulary of the statements *)

Definition nonindex (k : string) : bool := negb (is_index k).

(** The distinct names of a list, in the order of their first occurrence. *)
Fixpoint first_seen (names : list string) : list string :=
  match names with
  | [] => []
  | n :: rest => n :: filter (fun n' => negb (String.eqb n n')) (first_seen rest)
  end.

(** The numbers spelled by the array-index keys of a list of keys. *)
Definition index_values (ks : list string) : list N :=
  flat_map (fun k => match array_index k with Some i => [i] | None => [] end) ks.

(** The order in which an object enumerates its keys: the array indices
    first, in ascending order, the other keys after them. *)
Definition own_key_order (ks : list string) : Prop :=
  ks = filter is_index ks ++ filter nonindex ks /\
  StronglySorted N.lt (index_values ks).

(** Appending a name to a list that does not hold it yet. *)
Definition add_new (seen : list string) (n : string) : list string :=
  if includes seen n then seen else seen ++ [n].

(** Every model of the mapping is filed under its own name. *)
Definition named_by_key {P A : Type} (o : JSObject (Model P A)) : Prop :=
  Forall (fun kv => name (snd kv) = fst kv) o.

(** What holds of the mapping of [mixModels] all along. *)
Definition wf_models {P A : Type} (o : JSObject (Model P A)) : Prop :=
  NoDup (Object_keys o) /\
  own_key_order (Object_keys o) /\
  named_by_key o /\
  Forall (fun k => inherited k = false) (Object_keys o).

Definition not_inherited {P A : Type} (m : Model P A) : Prop :=
  inherited (name m) = false.

Section FieldVocabulary.

Context {P : Type}.

(** The fields of [new] that [reconcile] assigns at index [i]. *)
Definition writes_at (names : list string) (i : nat) (new : list (Field P))
    : list (Field P) :=
  filter
    (fun f => match indexOf names (fname f) with
              | Some j => Nat.eqb j i
              | None => false
              end)
    new.

(** [old], each position holding the last field of [new] assigned there, if
    any; [i] is the index of the head of [old]. *)
Fixpoint overwrite (names : list string) (new : list (Field P)) (i : nat)
    (old : list (Field P)) : list (Field P) :=
  match old with
  | [] => []
  | g :: rest => last (writes_at names i new) g :: overwrite names new (S i) rest
  end.

(** The fields of [new] whose name [names] does not hold. *)
Definition appended (names : list string) (new : list (Field P)) : list (Field P) :=
  filter (fun f => negb (includes names (fname f))) new.

End FieldVocabulary.

(** ** Concrete inputs *)

Definition fld (n p : string) : Field string := mkField n p.

Definition mdl (n : string) (fs : list (Field string)) : Model string unit :=
  mkModel n fs tt.

(** A file system as a list of paths with their contents. *)
Definition Files : Type := list (string * string).

Fixpoint fs_read (fs : Files) (p : string) : Result string :=
  match fs with
  | [] => Throw (Rejected "ENOENT")
  | (p', text) :: rest => if String.eqb p' p then Ok text else fs_read rest p
  end.

Fixpoint fs_put (fs : Files) (p text : string) : Files :=
  match fs with
  | [] => [(p, text)]
  | (p', text') :: rest =>
      if String.eqb p' p then (p', text) :: rest else (p', text') :: fs_put rest p text
  end.

Definition fs_write (fs : Files) (p text : string) : Files * Result unit :=
  (fs_put fs p text, Ok tt).

(** A stand-in for the Prisma SDK: a schema text that is not empty declares
    one model, one enumeration and one datasource of that name. *)
Definition toy_getDMMF (text : string)
    : Result (list (Model string unit) * option (list string)) :=
  if String.eqb text "" then Throw (Rejected "P1012")
  else Ok ([mdl text []], Some [text]).

Definition toy_getConfig (text : string) : Result (list string * list string) :=
  if String.eqb text "" then Throw (Rejected "P1012")
  else Ok ([text], []).

Definition toy_render (section : list string) : Result string :=
  Ok (join "," section).

Definition toy_render_models (ms : list (Model string unit)) : Result string :=
  Ok (join "," (map name ms)).

Definition toy_prismix (options : PrismixOptions) : Files -> Files * Result unit :=
  prismix (fun p => p) fs_read fs_write toy_getDMMF toy_getConfig
    toy_render toy_render toy_render_models toy_render options.

Definition disk : Files := [("a.prisma", "A"); ("b.prisma", "B")].

Definition job_missing : MixerOptions := mkMixerOptions ["missing.prisma"] "one.prisma".
Definition job_valid : MixerOptions := mkMixerOptions ["a.prisma"; "b.prisma"] "two.prisma".

(** Two fragments' worth of models, and models whose names spell integers. *)
Definition user_a : Model string unit :=
  mdl "User" [fld "id" "Int"; fld "name" "String"].
Definition user_b : Model string unit :=
  mdl "User" [fld "name" "String?"; fld "email" "String"].
Definition post_b : Model string unit := mdl "Post" [fld "id" "Int"].

Definition numbered : list (Model string unit) :=
  [mdl "Post" []; mdl "10" []; mdl "9" []].

(** Two versions of a model that is called [constructor]. *)
Definition constructor_a : Model string unit :=
  mdl "constructor" [fld "id" "Int"; fld "name" "String"].
Definition constructor_b : Model string unit :=
  mdl "constructor" [fld "name" "String?"; fld "email" "String"].

(** A second version of [user_a] that declares [email] twice. *)
Definition user_d : Model string unit :=
  mdl "User" [fld "email" "String"; fld "email" "String?"].

(** ** Vocabulary of the merged entities *)

Section MergeVocabulary.

Context {P A : Type}.

(** The model is called [k]. *)
Definition named (k : string) (m : Model P A) : bool := String.eqb (name m) k.

(** What the mapping holds under a name once one more model of that name has
    been taken: the model itself when the name was new, the accumulated
    entity with the fields of the model merged in otherwise. *)
Definition merge_into (acc : option (Model P A)) (m : Model P A)
    : option (Model P A) :=
  Some (match acc with
        | Some e => merge_fields e m
        | None => m
        end).

(** The models called [k], merged in the order of the stream. *)
Definition merged_entity (k : string) (ms : list (Model P A))
    (start : option (Model P A)) : option (Model P A) :=
  fold_left (fun acc m => if named k m then merge_into acc m else acc) ms start.

Definition field_names (m : Model P A) : list string := map fname (fields m).

(** The field names of the models called [k], in the order of the stream. *)
Definition field_names_of (k : string) (ms : list (Model P A)) : list string :=
  List.concat (map field_names (filter (named k) ms)).

End MergeVocabulary.

(** The strings of a list, one after the other. *)
Definition flatten (l : list string) : string :=
  fold_right String.append EmptyString l.


(** * Properties *)

(** ** Exceptions and arrays *)

Lemma bind_Ok_inv {T U : Type} (c : Result T) (k : T -> Result U) (u : U) :
  bind c k = Ok u -> exists v, c = Ok v /\ k v = Ok u.
Proof.
  destruct c as [v|e]; simpl; intros H; [eauto | discriminate].
Qed.

Lemma includes_In (names : list string) (n : string) :
  includes names n = true <-> In n names.
Proof.
  induction names as [|x rest IH]; simpl.
  - split; [discriminate | tauto].
  - rewrite orb_true_iff, IH, String.eqb_eq. tauto.
Qed.

Lemma includes_false (names : list string) (n : string) :
  includes names n = false <-> ~ In n names.
Proof.
  rewrite <- includes_In. destruct (includes names n); split; congruence.
Qed.

Lemma indexOf_includes (names : list string) (n : string) :
  includes names n = true ->
  exists i, indexOf names n = Some i /\ i < List.length names.
Proof.
  induction names as [|x rest IH]; simpl; [discriminate|].
  destruct (String.eqb x n) eqn:E; simpl.
  - intros _. exists 0. split; [reflexivity | lia].
  - intros H. destruct (IH H) as (i & Hi & Hlt). rewrite Hi.
    exists (S i). split; [reflexivity | lia].
Qed.

Lemma indexOf_None (names : list string) (n : string) :
  includes names n = false -> indexOf names n = None.
Proof.
  induction names as [|x rest IH]; simpl; [reflexivity|].
  destruct (String.eqb x n); simpl; [discriminate|].
  intros H. now rewrite IH.
Qed.

(** [indexOf] finds the first position of the name. *)
Lemma indexOf_first (names : list string) (n : string) (i : nat) :
  indexOf names n = Some i ->
  nth_error names i = Some n /\
  forall j, j < i -> nth_error names j <> Some n.
Proof.
  revert i. induction names as [|x rest IH]; simpl; [discriminate|].
  intros i. destruct (String.eqb x n) eqn:E.
  - intros [= <-]. apply String.eqb_eq in E. subst x. split; [reflexivity | lia].
  - destruct (indexOf rest n) as [i'|]; [|discriminate].
    intros [= <-]. destruct (IH i' eq_refl) as [Hn Hlt]. split; [exact Hn|].
    intros [|j] Hj; simpl.
    + intros [= ->]. rewrite String.eqb_refl in E. discriminate.
    + apply Hlt. lia.
Qed.

Lemma array_set_length {T : Type} (a : list T) (i : nat) (x : T) :
  List.length (array_set a i x) = List.length a.
Proof.
  revert i. induction a as [|y rest IH]; intros [|i]; simpl; auto.
Qed.

Lemma array_set_app {T : Type} (a b : list T) (i : nat) (x : T) :
  i < List.length a -> array_set (a ++ b) i x = array_set a i x ++ b.
Proof.
  revert i. induction a as [|y rest IH]; intros [|i]; simpl; try lia; auto.
  intros H. rewrite IH; [reflexivity | lia].
Qed.

(** ** Array-index keys *)

Lemma array_index_spelling (k : string) (i : N) :
  array_index k = Some i -> k = NilZero.string_of_uint (N.to_uint i).
Proof.
  unfold array_index. destruct (NilZero.uint_of_string k) as [u|]; [|discriminate].
  destruct (String.eqb _ k) eqn:E; simpl; [|discriminate].
  destruct (N.of_uint u <? 4294967295)%N; [|discriminate].
  intros [= <-]. apply String.eqb_eq in E. now symmetry.
Qed.

Lemma array_index_inj (k1 k2 : string) (i : N) :
  array_index k1 = Some i -> array_index k2 = Some i -> k1 = k2.
Proof.
  intros H1 H2. apply array_index_spelling in H1, H2. congruence.
Qed.

Lemma array_index_bound (k : string) (i : N) :
  array_index k = Some i -> (i < 4294967295)%N.
Proof.
  unfold array_index. destruct (NilZero.uint_of_string k) as [u|]; [|discriminate].
  destruct (String.eqb _ k); simpl; [|discriminate].
  destruct (N.of_uint u <? 4294967295)%N eqn:E; [|discriminate].
  intros [= <-]. now apply N.ltb_lt.
Qed.

Lemma is_index_nonindex (k : string) : nonindex k = negb (is_index k).
Proof. reflexivity. Qed.

(** ** Lists of names *)

Lemma filter_all {T : Type} (p : T -> bool) (l : list T) :
  Forall (fun x => p x = true) l -> filter p l = l.
Proof.
  induction 1 as [|x l Hx _ IH]; simpl; [reflexivity|]. now rewrite Hx, IH.
Qed.

Lemma filter_none {T : Type} (p : T -> bool) (l : list T) :
  Forall (fun x => p x = false) l -> filter p l = [].
Proof.
  induction 1 as [|x l Hx _ IH]; simpl; [reflexivity|]. now rewrite Hx.
Qed.

Lemma filter_filter_weaker {T : Type} (p q : T -> bool) (l : list T) :
  (forall x, In x l -> p x = true -> q x = true) ->
  filter p (filter q l) = filter p l.
Proof.
  induction l as [|x l IH]; simpl; intros H; [reflexivity|].
  destruct (q x) eqn:Q; simpl.
  - destruct (p x); rewrite IH; auto.
  - destruct (p x) eqn:Px.
    + rewrite (H x) in Q; [discriminate | now left | exact Px].
    + apply IH. auto.
Qed.

Lemma filter_comm {T : Type} (p q : T -> bool) (l : list T) :
  filter p (filter q l) = filter q (filter p l).
Proof.
  induction l as [|x l IH]; simpl; [reflexivity|].
  destruct (p x) eqn:Px, (q x) eqn:Q; simpl; rewrite ?Px, ?Q, IH; reflexivity.
Qed.

Lemma first_seen_In (l : list string) (n : string) :
  In n (first_seen l) <-> In n l.
Proof.
  induction l as [|x l IH]; simpl; [tauto|].
  rewrite filter_In, IH, negb_true_iff, String.eqb_neq.
  destruct (string_dec x n); tauto.
Qed.

Lemma first_seen_NoDup (l : list string) : NoDup (first_seen l).
Proof.
  induction l as [|x l IH]; simpl; constructor.
  - rewrite filter_In, String.eqb_refl. simpl. intros [_ H]. discriminate.
  - now apply NoDup_filter.
Qed.

(** A list without repetition is its own first-seen order. *)
Lemma first_seen_NoDup_id (l : list string) : NoDup l -> first_seen l = l.
Proof.
  induction 1 as [|x l Hx _ IH]; simpl; [reflexivity|].
  rewrite IH. f_equal. apply filter_all. apply Forall_forall.
  intros y Hy. apply negb_true_iff, String.eqb_neq. congruence.
Qed.

Lemma first_seen_filter (p : string -> bool) (l : list string) :
  first_seen (filter p l) = filter p (first_seen l).
Proof.
  induction l as [|x l IH]; simpl; [reflexivity|].
  destruct (p x) eqn:Px; simpl.
  - rewrite IH. f_equal. apply filter_comm.
  - rewrite IH. symmetry. apply filter_filter_weaker.
    intros y _ Hy. apply negb_true_iff, String.eqb_neq. congruence.
Qed.

Lemma filter_filter_andb {T : Type} (p q : T -> bool) (l : list T) :
  filter p (filter q l) = filter (fun x => q x && p x) l.
Proof.
  induction l as [|x l IH]; simpl; [reflexivity|].
  destruct (q x); simpl; [destruct (p x)|]; now rewrite IH.
Qed.

Lemma fold_add_new (l seen : list string) :
  fold_left add_new l seen =
  seen ++ filter (fun n => negb (includes seen n)) (first_seen l).
Proof.
  revert seen. induction l as [|x l IH]; intros seen; simpl.
  - now rewrite app_nil_r.
  - rewrite IH. unfold add_new. destruct (includes seen x) eqn:E; simpl; rewrite ?E; simpl.
    + f_equal. symmetry. apply filter_filter_weaker.
      intros y _ Hy. apply negb_true_iff, String.eqb_neq. intros ->.
      rewrite E in Hy. discriminate.
    + rewrite <- app_assoc. simpl. f_equal. f_equal.
      rewrite filter_filter_andb. apply filter_ext. intros y.
      apply eq_true_iff_eq.
      rewrite andb_true_iff, !negb_true_iff, String.eqb_neq, !includes_false, in_app_iff.
      simpl. intuition congruence.
Qed.

Lemma fold_add_new_nil (l : list string) : fold_left add_new l [] = first_seen l.
Proof.
  rewrite fold_add_new. simpl. apply filter_all, Forall_forall. reflexivity.
Qed.

(** ** Objects *)

Section ObjectFacts.

Context {V : Type}.
Implicit Types (o : JSObject V) (k : string) (v : V).

Lemma own_None o k : own o k = None <-> ~ In k (Object_keys o).
Proof.
  induction o as [|[k' v'] o IH]; simpl; [tauto|].
  destruct (String.eqb k' k) eqn:E.
  - apply String.eqb_eq in E. split; [discriminate | tauto].
  - apply String.eqb_neq in E. rewrite IH. tauto.
Qed.

Lemma own_Some_In o k v : own o k = Some v -> In (k, v) o.
Proof.
  induction o as [|[k' v'] o IH]; simpl; [discriminate|].
  destruct (String.eqb k' k) eqn:E.
  - apply String.eqb_eq in E. intros [= ->]. left. now subst.
  - auto.
Qed.

Lemma own_app_None o1 o2 k :
  own o1 k = None -> own (o1 ++ o2) k = own o2 k.
Proof.
  induction o1 as [|[k' v'] o1 IH]; simpl; [reflexivity|].
  destruct (String.eqb k' k); [discriminate | exact IH].
Qed.

Lemma keys_replace o k v : Object_keys (obj_replace o k v) = Object_keys o.
Proof.
  induction o as [|[k' v'] o IH]; simpl; [reflexivity|].
  destruct (String.eqb k' k); simpl; [reflexivity | now rewrite IH].
Qed.

Lemma keys_app o1 o2 : Object_keys (o1 ++ o2) = Object_keys o1 ++ Object_keys o2.
Proof. apply map_app. Qed.

(** What [obj_replace] leaves in the object. *)
Lemma In_replace o k v k' v' :
  In (k', v') (obj_replace o k v) -> In (k', v') o \/ (k', v') = (k, v).
Proof.
  induction o as [|[k0 v0] o IH]; simpl; [tauto|].
  destruct (String.eqb k0 k) eqn:E; simpl.
  - apply String.eqb_eq in E. subst k0. intros [H|H]; auto.
  - intros [H|H]; auto. destruct (IH H); auto.
Qed.

Lemma In_insert_index o k i v kv :
  In kv (obj_insert_index o k i v) <-> kv = (k, v) \/ In kv o.
Proof.
  induction o as [|[k0 v0] o IH]; simpl.
  - intuition.
  - destruct (array_index k0) as [j|]; [destruct (j <? i)%N|]; simpl;
      rewrite ?IH; intuition.
Qed.

(** After every smaller index, a new index lands at the end. *)
Lemma insert_index_last o k i v :
  Forall (fun k' => exists j, array_index k' = Some j /\ (j < i)%N) (Object_keys o) ->
  obj_insert_index o k i v = o ++ [(k, v)].
Proof.
  induction o as [|[k0 v0] o IH]; simpl; intros H; [reflexivity|].
  inversion H as [|? ? (j & Hj & Hlt) H']; subst.
  rewrite Hj. apply N.ltb_lt in Hlt. rewrite Hlt. now rewrite IH.
Qed.

End ObjectFacts.

(** ** The order of the keys *)

Lemma index_values_app (ks1 ks2 : list string) :
  index_values (ks1 ++ ks2) = index_values ks1 ++ index_values ks2.
Proof. apply flat_map_app. Qed.

Lemma index_values_nonindex (ks : list string) :
  Forall (fun k => is_index k = false) ks -> index_values ks = [].
Proof.
  induction 1 as [|k ks Hk _ IH]; [reflexivity|].
  unfold index_values in *. simpl. rewrite IH. unfold is_index in Hk.
  destruct (array_index k); [discriminate | reflexivity].
Qed.

Lemma index_values_In (ks : list string) (i : N) :
  In i (index_values ks) <-> exists k, In k ks /\ array_index k = Some i.
Proof.
  unfold index_values. rewrite in_flat_map. split.
  - intros (k & Hk & Hi). exists k. split; [exact Hk|].
    destruct (array_index k); simpl in Hi; [|tauto].
    destruct Hi as [->|[]]. reflexivity.
  - intros (k & Hk & Hi). exists k. split; [exact Hk|]. rewrite Hi. now left.
Qed.

Lemma nonindex_false (k : string) : nonindex k = false <-> is_index k = true.
Proof. unfold nonindex. now rewrite negb_false_iff. Qed.

Lemma nonindex_true (k : string) : nonindex k = true <-> is_index k = false.
Proof. unfold nonindex. now rewrite negb_true_iff. Qed.

(** [own_key_order] says that the keys split into sorted indices followed by
    the other keys. *)
Lemma own_key_order_split (ks : list string) :
  own_key_order ks <->
  exists I S, ks = I ++ S /\
    Forall (fun k => is_index k = true) I /\
    Forall (fun k => is_index k = false) S /\
    StronglySorted N.lt (index_values I).
Proof.
  split.
  - intros [Hs Hsorted].
    exists (filter is_index ks), (filter nonindex ks).
    assert (HI : Forall (fun k => is_index k = true) (filter is_index ks)).
    { apply Forall_forall. intros k Hk. now apply filter_In in Hk. }
    assert (HS : Forall (fun k => is_index k = false) (filter nonindex ks)).
    { apply Forall_forall. intros k Hk. apply filter_In in Hk.
      now apply nonindex_true. }
    repeat split; auto.
    rewrite Hs, index_values_app, (index_values_nonindex _ HS), app_nil_r in Hsorted.
    exact Hsorted.
  - intros (I & S & -> & HI & HS & Hsorted).
    assert (HS' : Forall (fun k => nonindex k = true) S).
    { eapply Forall_impl; [|exact HS]. intros k. apply nonindex_true. }
    assert (HI' : Forall (fun k => nonindex k = false) I).
    { eapply Forall_impl; [|exact HI]. intros k. apply nonindex_false. }
    split.
    + rewrite !filter_app, (filter_all _ _ HI), (filter_none _ _ HS),
        (filter_none _ _ HI'), (filter_all _ _ HS').
      now rewrite app_nil_r.
    + now rewrite index_values_app, (index_values_nonindex _ HS), app_nil_r.
Qed.

Lemma index_values_cons_index (k : string) (i : N) (ks : list string) :
  array_index k = Some i -> index_values (k :: ks) = i :: index_values ks.
Proof. intros H. unfold index_values. simpl. now rewrite H. Qed.

Lemma index_values_cons_other (k : string) (ks : list string) :
  array_index k = None -> index_values (k :: ks) = index_values ks.
Proof. intros H. unfold index_values. simpl. now rewrite H. Qed.

Lemma sorted_insert_middle (l1 l2 : list N) (i : N) :
  StronglySorted N.lt (l1 ++ l2) ->
  Forall (fun j => (j < i)%N) l1 ->
  Forall (fun j => (i < j)%N) l2 ->
  StronglySorted N.lt (l1 ++ i :: l2).
Proof.
  induction l1 as [|x l1 IH]; simpl; intros Hs H1 H2.
  - now constructor.
  - inversion Hs as [|? ? Hs' Hx]; subst. inversion H1 as [|? ? Hxi H1']; subst.
    constructor; [now apply IH|].
    apply Forall_app in Hx. destruct Hx as [Hx1 Hx2].
    apply Forall_app. split; [exact Hx1|].
    constructor; [exact Hxi | exact Hx2].
Qed.

Section InsertIndex.

Context {V : Type}.

(** Where [obj_insert_index] puts a new index among the keys. *)
Lemma insert_index_keys (k : string) (i : N) (v : V) (o : JSObject V) :
  forall I S,
    Object_keys o = I ++ S ->
    Forall (fun k' => is_index k' = true) I ->
    Forall (fun k' => is_index k' = false) S ->
    StronglySorted N.lt (index_values I) ->
    ~ In i (index_values I) ->
    exists I1 I2,
      I = I1 ++ I2 /\
      Object_keys (obj_insert_index o k i v) = I1 ++ k :: I2 ++ S /\
      Forall (fun j => (j < i)%N) (index_values I1) /\
      Forall (fun j => (i < j)%N) (index_values I2).
Proof.
  induction o as [|[k0 v0] o IH]; intros I S Hk HI HS Hsorted Hfresh.
  - destruct I; [|discriminate]. destruct S; [|discriminate].
    exists [], []. simpl. repeat split; constructor.
  - simpl in Hk. destruct I as [|k1 I].
    + simpl in Hk. subst S. inversion HS as [|? ? Hk0 _]; subst.
      unfold is_index in Hk0. simpl.
      destruct (array_index k0) eqn:E0; [discriminate|].
      exists [], []. simpl. repeat split; constructor.
    + simpl in Hk. injection Hk as <- Hk.
      inversion HI as [|? ? Hk0 HI']; subst.
      unfold is_index in Hk0. destruct (array_index k0) as [j|] eqn:E0; [|discriminate].
      rewrite (index_values_cons_index _ _ _ E0) in Hsorted, Hfresh.
      inversion Hsorted as [|? ? Hsorted' Hj]; subst.
      simpl. rewrite E0. destruct (j <? i)%N eqn:Hlt.
      * destruct (IH I S Hk HI' HS Hsorted') as (I1 & I2 & -> & Hkeys & H1 & H2).
        { intros Hin. apply Hfresh. now right. }
        exists (k0 :: I1), I2. split; [reflexivity|]. split; [|split].
        -- simpl. now rewrite Hkeys.
        -- rewrite (index_values_cons_index _ _ _ E0).
           constructor; [now apply N.ltb_lt | exact H1].
        -- exact H2.
      * apply N.ltb_ge in Hlt.
        assert (Hij : (i < j)%N).
        { destruct (N.eq_dec i j) as [->|Hne]; [|lia].
          exfalso. apply Hfresh. now left. }
        exists [], (k0 :: I). split; [reflexivity|]. split; [|split].
        -- simpl. now rewrite Hk.
        -- constructor.
        -- rewrite (index_values_cons_index _ _ _ E0).
           constructor; [exact Hij|].
           eapply Forall_impl; [|exact Hj]. intros a Ha. simpl in Ha. lia.
Qed.

Lemma insert_index_order (k : string) (i : N) (v : V) (o : JSObject V) :
  own_key_order (Object_keys o) ->
  array_index k = Some i ->
  ~ In k (Object_keys o) ->
  own_key_order (Object_keys (obj_insert_index o k i v)).
Proof.
  intros Hord Hk Hfresh.
  apply own_key_order_split in Hord.
  destruct Hord as (I & S & Hkeys & HI & HS & Hsorted).
  destruct (insert_index_keys k i v o I S Hkeys HI HS Hsorted)
    as (I1 & I2 & -> & Hkeys' & H1 & H2).
  { intros Hin. apply index_values_In in Hin. destruct Hin as (k' & Hk' & Hi').
    apply Hfresh. rewrite Hkeys. apply in_or_app. left.
    now rewrite (array_index_inj _ _ _ Hk Hi'). }
  apply own_key_order_split.
  exists (I1 ++ k :: I2), S. repeat split.
  - now rewrite Hkeys', <- app_assoc.
  - apply Forall_app in HI. destruct HI as [HI1 HI2].
    apply Forall_app. split; [exact HI1|].
    constructor; [|exact HI2]. unfold is_index. now rewrite Hk.
  - exact HS.
  - rewrite index_values_app, (index_values_cons_index _ _ _ Hk).
    apply sorted_insert_middle; auto.
    now rewrite <- index_values_app.
Qed.

Lemma insert_index_nonindex (k : string) (i : N) (v : V) (o : JSObject V) :
  array_index k = Some i ->
  filter nonindex (Object_keys (obj_insert_index o k i v)) =
  filter nonindex (Object_keys o).
Proof.
  intros Hk.
  assert (Hn : nonindex k = false).
  { unfold nonindex, is_index. now rewrite Hk. }
  induction o as [|[k0 v0] o IH]; simpl.
  - now rewrite Hn.
  - destruct (array_index k0) as [j|] eqn:E0; [destruct (j <? i)%N|]; simpl;
      rewrite ?Hn, ?IH; reflexivity.
Qed.

End InsertIndex.

Section SetFacts.

Context {V : Type}.
Implicit Types (o : JSObject V) (k : string) (v : V).

Lemma insert_index_perm o k i v :
  Permutation (Object_keys (obj_insert_index o k i v)) (k :: Object_keys o).
Proof.
  induction o as [|[k0 v0] o IH]; simpl; [reflexivity|].
  destruct (array_index k0) as [j|]; [destruct (j <? i)%N|]; simpl; try reflexivity.
  rewrite IH. apply perm_swap.
Qed.

(** A new key joins the keys of the object. *)
Lemma set_new_perm o k v :
  own o k = None -> Permutation (Object_keys (obj_set o k v)) (k :: Object_keys o).
Proof.
  intros H. unfold obj_set. rewrite H. destruct (array_index k) as [i|].
  - apply insert_index_perm.
  - rewrite keys_app. simpl. symmetry. apply Permutation_cons_append.
Qed.

Lemma set_new_In o k v kv :
  own o k = None -> In kv (obj_set o k v) <-> kv = (k, v) \/ In kv o.
Proof.
  intros H. unfold obj_set. rewrite H. destruct (array_index k) as [i|].
  - apply In_insert_index.
  - rewrite in_app_iff. simpl. intuition.
Qed.

Lemma set_new_order o k v :
  own o k = None ->
  own_key_order (Object_keys o) ->
  own_key_order (Object_keys (obj_set o k v)).
Proof.
  intros H Hord. unfold obj_set. rewrite H.
  destruct (array_index k) as [i|] eqn:Hk.
  - apply insert_index_order; auto. now apply own_None.
  - apply own_key_order_split in Hord.
    destruct Hord as (I & S & Hkeys & HI & HS & Hsorted).
    apply own_key_order_split. exists I, (S ++ [k]). repeat split; auto.
    + now rewrite keys_app, Hkeys, <- app_assoc.
    + apply Forall_app. split; [exact HS|]. constructor; [|constructor].
      unfold is_index. now rewrite Hk.
Qed.

(** The keys that are not array indices stay in the order of their creation. *)
Lemma set_new_nonindex o k v :
  own o k = None ->
  filter nonindex (Object_keys (obj_set o k v)) =
  if nonindex k then filter nonindex (Object_keys o) ++ [k]
  else filter nonindex (Object_keys o).
Proof.
  intros H. unfold obj_set. rewrite H. unfold nonindex at 2, is_index.
  destruct (array_index k) as [i|] eqn:Hk; simpl.
  - now apply insert_index_nonindex.
  - rewrite keys_app, filter_app. simpl. unfold nonindex at 2, is_index.
    now rewrite Hk.
Qed.

Lemma set_own o k v v0 :
  own o k = Some v0 -> obj_set o k v = obj_replace o k v.
Proof. intros H. unfold obj_set. now rewrite H. Qed.

End SetFacts.

(** ** The mapping of [mixModels] *)

Section MixFacts.

Context {P A : Type}.
Implicit Types (o : JSObject (Model P A)) (m : Model P A) (ms : list (Model P A)).

(** The two ways a step succeeds; the third way throws. *)
Lemma mix_step_Ok o m o' :
  mix_step o m = Ok o' ->
  (exists e, own o (name m) = Some e /\
             o' = obj_replace o (name m) (merge_fields e m)) \/
  (own o (name m) = None /\ inherited (name m) = false /\
   o' = obj_set o (name m) m).
Proof.
  unfold mix_step, obj_get. destruct (own o (name m)) as [e|] eqn:E.
  - intros [= <-]. left. exists e. split; [reflexivity|]. now apply set_own with e.
  - destruct (inherited (name m)); [discriminate|]. intros [= <-]. now right.
Qed.

Lemma mix_step_Throw o m e :
  mix_step o m = Throw e ->
  e = TypeError /\ own o (name m) = None /\ inherited (name m) = true.
Proof.
  unfold mix_step, obj_get. destruct (own o (name m)); [discriminate|].
  destruct (inherited (name m)); [|discriminate]. now intros [= <-].
Qed.

Lemma mix_step_wf o m o' :
  wf_models o -> mix_step o m = Ok o' -> wf_models o'.
Proof.
  intros (Hnd & Hord & Hnamed & Hinh) Hstep.
  destruct (mix_step_Ok _ _ _ Hstep) as [(e & He & ->)|(Hnone & Hni & ->)].
  - unfold wf_models. rewrite keys_replace.
    split; [exact Hnd|]. split; [exact Hord|]. split; [|exact Hinh].
    unfold named_by_key in *. rewrite Forall_forall in Hnamed. apply Forall_forall.
    intros [k v] Hin. apply In_replace in Hin. destruct Hin as [Hin|[= -> ->]].
    + now apply Hnamed.
    + simpl. apply own_Some_In in He. apply (Hnamed _ He).
  - assert (Hperm := set_new_perm o (name m) m Hnone).
    split; [|split; [|split]].
    + apply (Permutation_NoDup (Permutation_sym Hperm)).
      constructor; [now apply own_None | exact Hnd].
    + now apply set_new_order.
    + unfold named_by_key in *. rewrite Forall_forall in Hnamed. apply Forall_forall.
      intros kv Hin. apply set_new_In in Hin; [|exact Hnone].
      destruct Hin as [->|Hin]; [reflexivity | now apply Hnamed].
    + apply (Permutation_Forall (Permutation_sym Hperm)).
      constructor; [exact Hni | exact Hinh].
Qed.

Lemma wf_models_nil : wf_models (@nil (string * Model P A)).
Proof.
  split; [constructor|]. split; [|split; constructor].
  split; [reflexivity | constructor].
Qed.

Lemma mix_loop_wf ms : forall o o',
  wf_models o -> mix_loop o ms = Ok o' -> wf_models o'.
Proof.
  induction ms as [|m ms IH]; simpl; intros o o' Hwf H.
  - now injection H as <-.
  - apply bind_Ok_inv in H. destruct H as (o1 & H1 & H2).
    eapply IH; [|exact H2]. eapply mix_step_wf; eauto.
Qed.

(** The keys after a step. *)
Lemma mix_step_keys_In o m o' k :
  mix_step o m = Ok o' ->
  In k (Object_keys o') <-> In k (Object_keys o) \/ k = name m.
Proof.
  intros Hstep.
  destruct (mix_step_Ok _ _ _ Hstep) as [(e & He & ->)|(Hnone & Hni & ->)].
  - rewrite keys_replace. split; [tauto|]. intros [H| ->]; [exact H|].
    apply own_Some_In in He. apply (in_map fst) in He. exact He.
  - assert (Hperm := set_new_perm o (name m) m Hnone). split.
    + intros H. apply (Permutation_in _ Hperm) in H. simpl in H. intuition.
    + intros H. apply (Permutation_in _ (Permutation_sym Hperm)). simpl. intuition.
Qed.

Lemma includes_filter_nonindex (ks : list string) (k : string) :
  nonindex k = true -> includes (filter nonindex ks) k = includes ks k.
Proof.
  intros Hk. apply eq_true_iff_eq. rewrite !includes_In, filter_In. tauto.
Qed.

Lemma mix_step_keys_nonindex o m o' :
  mix_step o m = Ok o' ->
  filter nonindex (Object_keys o') =
  if nonindex (name m) then add_new (filter nonindex (Object_keys o)) (name m)
  else filter nonindex (Object_keys o).
Proof.
  intros Hstep.
  destruct (mix_step_Ok _ _ _ Hstep) as [(e & He & ->)|(Hnone & Hni & ->)].
  - rewrite keys_replace. destruct (nonindex (name m)) eqn:Hn; [|reflexivity].
    unfold add_new. rewrite (includes_filter_nonindex _ _ Hn).
    replace (includes (Object_keys o) (name m)) with true; [reflexivity|].
    symmetry. apply includes_In. apply own_Some_In in He.
    apply (in_map fst) in He. exact He.
  - rewrite (set_new_nonindex _ _ _ Hnone).
    destruct (nonindex (name m)) eqn:Hn; [|reflexivity].
    unfold add_new. rewrite (includes_filter_nonindex _ _ Hn).
    replace (includes (Object_keys o) (name m)) with false; [reflexivity|].
    symmetry. apply includes_false. now apply own_None.
Qed.

Lemma mix_loop_keys_In ms : forall o o' k,
  mix_loop o ms = Ok o' ->
  In k (Object_keys o') <-> In k (Object_keys o) \/ In k (map name ms).
Proof.
  induction ms as [|m ms IH]; simpl; intros o o' k H.
  - injection H as <-. tauto.
  - apply bind_Ok_inv in H. destruct H as (o1 & H1 & H2).
    rewrite (IH _ _ _ H2), (mix_step_keys_In _ _ _ k H1). intuition.
Qed.

Lemma fold_add_new_skip (p : string -> bool) (l seen : list string) :
  fold_left (fun acc n => if p n then add_new acc n else acc) l seen =
  fold_left add_new (filter p l) seen.
Proof.
  revert seen. induction l as [|x l IH]; intros seen; simpl; [reflexivity|].
  rewrite IH. destruct (p x); reflexivity.
Qed.

Lemma mix_loop_keys_nonindex ms : forall o o',
  mix_loop o ms = Ok o' ->
  filter nonindex (Object_keys o') =
  fold_left add_new (filter nonindex (map name ms)) (filter nonindex (Object_keys o)).
Proof.
  induction ms as [|m ms IH]; simpl; intros o o' H.
  - now injection H as <-.
  - apply bind_Ok_inv in H. destruct H as (o1 & H1 & H2).
    rewrite (IH _ _ H2), (mix_step_keys_nonindex _ _ _ H1).
    destruct (nonindex (name m)); reflexivity.
Qed.

(** [mixModels] returns unless a name is found on [Object.prototype]. *)
Lemma mix_loop_returns ms : forall o,
  Forall not_inherited ms -> exists o', mix_loop o ms = Ok o'.
Proof.
  induction ms as [|m ms IH]; simpl; intros o H; [eauto|].
  inversion H as [|? ? Hm Hms]; subst.
  destruct (mix_step o m) as [o1|e] eqn:E.
  - simpl. now apply IH.
  - apply mix_step_Throw in E. destruct E as (_ & _ & E).
    unfold not_inherited in Hm. congruence.
Qed.

Lemma mixModels_returns ms :
  Forall not_inherited ms -> exists out, mixModels ms = Ok out.
Proof.
  intros H. unfold mixModels.
  destruct (mix_loop_returns ms [] H) as (o & ->). simpl. eauto.
Qed.

Lemma mix_loop_throws ms : forall o e,
  mix_loop o ms = Throw e ->
  e = TypeError /\ exists m, In m ms /\ inherited (name m) = true.
Proof.
  induction ms as [|m ms IH]; simpl; intros o e H; [discriminate|].
  destruct (mix_step o m) as [o1|e1] eqn:E; simpl in H.
  - destruct (IH _ _ H) as (-> & m' & Hin & Hm'). split; [reflexivity|].
    exists m'. auto.
  - injection H as ->. apply mix_step_Throw in E. destruct E as (-> & _ & E).
    split; [reflexivity|]. exists m. auto.
Qed.

Lemma mixModels_Ok_inv ms out :
  mixModels ms = Ok out ->
  exists o, mix_loop [] ms = Ok o /\ out = Object_values o /\ wf_models o.
Proof.
  unfold mixModels. intros H. apply bind_Ok_inv in H.
  destruct H as (o & Ho & [= <-]). exists o.
  split; [exact Ho|]. split; [reflexivity|].
  eapply mix_loop_wf; [apply wf_models_nil | exact Ho].
Qed.

Lemma names_are_keys o :
  named_by_key o -> map name (Object_values o) = Object_keys o.
Proof.
  unfold Object_values, Object_keys. induction 1 as [|[k v] o Hk _ IH]; simpl.
  - reflexivity.
  - simpl in Hk. now rewrite Hk, IH.
Qed.

End MixFacts.

(** ** The order and the names of the merged entities *)

Section Merged.

Context {P A : Type}.
Implicit Types (ms out : list (Model P A)).

Lemma merged_names_first_seen ms out :
  mixModels ms = Ok out ->
  filter nonindex (map name out) = filter nonindex (first_seen (map name ms)).
Proof.
  intros H. destruct (mixModels_Ok_inv _ _ H) as (o & Ho & -> & Hwf).
  destruct Hwf as (_ & _ & Hnamed & _). rewrite (names_are_keys _ Hnamed).
  rewrite (mix_loop_keys_nonindex _ _ _ Ho). simpl.
  now rewrite fold_add_new_nil, first_seen_filter.
Qed.

Lemma merged_names_perm ms out :
  mixModels ms = Ok out ->
  Permutation (map name out) (first_seen (map name ms)).
Proof.
  intros H. destruct (mixModels_Ok_inv _ _ H) as (o & Ho & -> & Hwf).
  destruct Hwf as (Hnd & _ & Hnamed & _). rewrite (names_are_keys _ Hnamed).
  apply NoDup_Permutation; [exact Hnd | apply first_seen_NoDup |].
  intros k. rewrite (mix_loop_keys_In _ _ _ k Ho), first_seen_In. simpl. tauto.
Qed.

(** C1, amended: [mixModels] returns a list unless an input name is found on
    [Object.prototype].  The list it returns holds every distinct input name
    once; the names that are not array indices are in first-seen order, and
    the names that are array indices (the canonical decimal spellings of the
    integers below 2^32 - 1) come before them, in ascending numeric order.
    When no input name is an array index, the position of an entity in the
    output is the rank of the first occurrence of its name in the input. *)
Theorem mixModels_order ms :
  (Forall not_inherited ms -> exists out, mixModels ms = Ok out) /\
  (forall out, mixModels ms = Ok out ->
     Permutation (map name out) (first_seen (map name ms)) /\
     own_key_order (map name out) /\
     filter nonindex (map name out) = filter nonindex (first_seen (map name ms)) /\
     (Forall (fun m => is_index (name m) = false) ms ->
      map name out = first_seen (map name ms))).
Proof.
  split; [apply mixModels_returns|].
  intros out H. assert (Hperm := merged_names_perm _ _ H).
  assert (Hseen := merged_names_first_seen _ _ H).
  destruct (mixModels_Ok_inv _ _ H) as (o & Ho & Hout & Hwf).
  destruct Hwf as (_ & Hord & Hnamed & _).
  assert (Hord' : own_key_order (map name out)).
  { subst out. now rewrite (names_are_keys _ Hnamed). }
  split; [exact Hperm|]. split; [exact Hord'|]. split; [exact Hseen|].
  intros Hnone.
  assert (Hall : Forall (fun k => nonindex k = true) (first_seen (map name ms))).
  { apply Forall_forall. intros k Hk. apply first_seen_In, in_map_iff in Hk.
    destruct Hk as (m & <- & Hm). apply nonindex_true.
    rewrite Forall_forall in Hnone. now apply Hnone. }
  assert (Hall' : Forall (fun k => nonindex k = true) (map name out)).
  { apply (Permutation_Forall (Permutation_sym Hperm)). exact Hall. }
  now rewrite <- (filter_all _ _ Hall'), Hseen, (filter_all _ _ Hall).
Qed.

(** C8: whatever the input, [mixModels] returns a list unless an input name
    is found on [Object.prototype], and no two entities of the list it
    returns have the same name. *)
Theorem mixModels_names_unique ms :
  (Forall not_inherited ms -> exists out, mixModels ms = Ok out) /\
  (forall out, mixModels ms = Ok out -> NoDup (map name out)).
Proof.
  split; [apply mixModels_returns|].
  intros out H. destruct (mixModels_Ok_inv _ _ H) as (o & _ & -> & Hwf).
  destruct Hwf as (Hnd & _ & Hnamed & _). now rewrite (names_are_keys _ Hnamed).
Qed.

End Merged.

Lemma mixModels_order_witness :
  (exists out, mixModels [user_a; user_b; post_b] = Ok out) /\
  map name [mdl "User" [fld "id" "Int"; fld "name" "String?"; fld "email" "String"];
            post_b]
  = first_seen (map name [user_a; user_b; post_b]).
Proof.
  split.
  - apply (proj1 (mixModels_order [user_a; user_b; post_b])). repeat constructor.
  - apply (proj2 (mixModels_order [user_a; user_b; post_b])); [reflexivity|].
    repeat constructor.
Defined.

(** C1 as stated fails: names that spell integers are listed first and in
    numeric order, not at the rank of their first occurrence. *)
Lemma mixModels_order_counterexample :
  mixModels numbered = Ok [mdl "9" []; mdl "10" []; mdl "Post" []] /\
  map name [mdl "9" []; mdl "10" []; mdl "Post" []]
  <> first_seen (map name numbered).
Proof.
  split; [reflexivity | discriminate].
Qed.

Lemma mixModels_names_unique_witness :
  (exists out, mixModels [user_a; user_b; post_b] = Ok out) /\
  NoDup (map name
           [mdl "User" [fld "id" "Int"; fld "name" "String?"; fld "email" "String"];
            post_b]).
Proof.
  split.
  - apply (proj1 (mixModels_names_unique [user_a; user_b; post_b])).
    repeat constructor.
  - apply (proj2 (mixModels_names_unique [user_a; user_b; post_b])). reflexivity.
Defined.

(** ** Field reconciliation *)

Section Reconcile.

Context {P A : Type}.
Implicit Types (f g : Field P) (old new extra : list (Field P)).

Lemma last_cons {T : Type} (w : list T) (x d : T) : last (x :: w) d = last w x.
Proof.
  revert x d. induction w as [|y w IH]; intros x d; [reflexivity|].
  change (last (x :: y :: w) d) with (last (y :: w) d).
  now rewrite !IH.
Qed.

Lemma writes_at_hit names i j f new :
  indexOf names (fname f) = Some i ->
  writes_at names j (f :: new) =
  if Nat.eqb i j then f :: writes_at names j new else writes_at names j new.
Proof. intros H. unfold writes_at. simpl. now rewrite H. Qed.

Lemma writes_at_miss names j f new :
  indexOf names (fname f) = None ->
  writes_at names j (f :: new) = writes_at names j new.
Proof. intros H. unfold writes_at. simpl. now rewrite H. Qed.

Lemma overwrite_nil names i old : overwrite names [] i old = old.
Proof.
  revert i. induction old as [|g old IH]; intros i; simpl; [reflexivity|].
  now rewrite IH.
Qed.

Lemma overwrite_length names new i old :
  List.length (overwrite names new i old) = List.length old.
Proof.
  revert i. induction old as [|g old IH]; intros i; simpl; auto.
Qed.

(** Position by position: the last field assigned there, or the old one. *)
Lemma overwrite_nth names new old : forall i0 j g,
  nth_error old j = Some g ->
  nth_error (overwrite names new i0 old) j =
  Some (last (writes_at names (i0 + j) new) g).
Proof.
  induction old as [|g0 old IH]; intros i0 [|j] g; simpl; try discriminate.
  - intros [= ->]. now rewrite Nat.add_0_r.
  - intros H. rewrite (IH (S i0) j g H). do 3 f_equal. lia.
Qed.

Lemma overwrite_miss names f new : indexOf names (fname f) = None ->
  forall i0 old, overwrite names (f :: new) i0 old = overwrite names new i0 old.
Proof.
  intros H i0 old. revert i0.
  induction old as [|g old IH]; intros i0; cbn [overwrite]; [reflexivity|].
  now rewrite (writes_at_miss _ _ _ _ H), IH.
Qed.

Lemma overwrite_hit names f new i : indexOf names (fname f) = Some i ->
  forall old i0,
    overwrite names (f :: new) i0 old =
    if Nat.leb i0 i then overwrite names new i0 (array_set old (i - i0) f)
    else overwrite names new i0 old.
Proof.
  intros H. induction old as [|g old IH]; intros i0.
  - simpl. now destruct (Nat.leb i0 i).
  - cbn [overwrite]. rewrite (writes_at_hit _ _ _ _ _ H), IH.
    destruct (Nat.leb i0 i) eqn:Hle.
    + apply Nat.leb_le in Hle. destruct (Nat.eqb i i0) eqn:Heq.
      * apply Nat.eqb_eq in Heq. subst i0. rewrite Nat.sub_diag.
        cbn [array_set overwrite]. rewrite last_cons.
        replace (Nat.leb (S i) i) with false; [reflexivity|].
        symmetry. apply Nat.leb_gt. lia.
      * apply Nat.eqb_neq in Heq.
        replace (i - i0) with (S (i - S i0)) by lia.
        cbn [array_set overwrite].
        replace (Nat.leb (S i0) i) with true; [reflexivity|].
        symmetry. apply Nat.leb_le. lia.
    + apply Nat.leb_gt in Hle.
      replace (Nat.eqb i i0) with false by (symmetry; apply Nat.eqb_neq; lia).
      replace (Nat.leb (S i0) i) with false; [reflexivity|].
      symmetry. apply Nat.leb_gt. lia.
Qed.

(** The loop over the new fields in closed form: the old positions, each
    with the last field assigned to it, then the fields whose name the
    snapshot does not hold, every one of them and in order. *)
Lemma reconcile_fold names new : forall old extra,
  List.length old = List.length names ->
  fold_left (reconcile names) new (old ++ extra) =
  overwrite names new 0 old ++ extra ++ appended names new.
Proof.
  induction new as [|f new IH]; intros old extra Hlen; simpl.
  - now rewrite overwrite_nil, app_nil_r.
  - unfold reconcile at 2. unfold appended. simpl.
    destruct (includes names (fname f)) eqn:Hin; simpl.
    + destruct (indexOf_includes _ _ Hin) as (i & Hi & Hlt). rewrite Hi.
      rewrite array_set_app by lia.
      rewrite IH by (now rewrite array_set_length).
      rewrite (overwrite_hit _ _ _ _ Hi). simpl. now rewrite Nat.sub_0_r.
    + rewrite <- app_assoc. rewrite IH by exact Hlen.
      rewrite (overwrite_miss _ _ _ (indexOf_None _ _ Hin)).
      now rewrite <- app_assoc.
Qed.

Lemma merge_fields_closed (e m : Model P A) :
  merge_fields e m =
  with_fields e
    (overwrite (map fname (fields e)) (fields m) 0 (fields e)
     ++ appended (map fname (fields e)) (fields m)).
Proof.
  unfold merge_fields. f_equal.
  rewrite <- (app_nil_r (fields e)) at 2.
  rewrite reconcile_fold by (now rewrite length_map). reflexivity.
Qed.

(** The array is only ever assigned inside its bounds. *)
Lemma reconcile_length names fs f :
  List.length names <= List.length fs ->
  List.length fs <= List.length (reconcile names fs f).
Proof.
  intros H. unfold reconcile. destruct (includes names (fname f)).
  - destruct (indexOf names (fname f)); [rewrite array_set_length|]; lia.
  - rewrite length_app. simpl. lia.
Qed.

End Reconcile.

Section ReconcileClaims.

Context {P A : Type}.

Lemma array_set_twice {T : Type} (a : list T) (i : nat) (x y : T) :
  array_set (array_set a i x) i y = array_set a i y.
Proof.
  revert i. induction a as [|z a IH]; intros [|i]; simpl; auto.
  now rewrite IH.
Qed.

(** C3, amended: when the name of the new entity is already in the mapping,
    its fields are taken in order and replace-or-append is decided against
    the field names the accumulated entity had when the reconciliation of
    this new entity began.  A new field whose name is among them is assigned
    at the first position of that name, so that every old position ends up
    with the last new field assigned to it or keeps its field; every other
    new field is appended at the end, in order.  The entity keeps its place
    in the mapping.  Fields appended while the same new entity is reconciled
    are not looked at: two same-named fields of one new entity are both
    appended when the accumulated entity had no field of that name, and when
    it had one the second of them is what remains at its position. *)
Theorem mix_step_reconciles (o : JSObject (Model P A))
    (newModel existingModel : Model P A) :
  own o (name newModel) = Some existingModel ->
  let snapshot := map fname (fields existingModel) in
  let kept := overwrite snapshot (fields newModel) 0 (fields existingModel) in
  mix_step o newModel =
    Ok (obj_replace o (name newModel)
          (with_fields existingModel (kept ++ appended snapshot (fields newModel)))) /\
  Object_keys (obj_replace o (name newModel)
                 (with_fields existingModel
                    (kept ++ appended snapshot (fields newModel)))) = Object_keys o /\
  (forall j g, nth_error (fields existingModel) j = Some g ->
     nth_error kept j = Some (last (writes_at snapshot j (fields newModel)) g)) /\
  (forall g1 g2, fields newModel = [g1; g2] -> fname g1 = fname g2 ->
     (includes snapshot (fname g1) = false ->
      kept ++ appended snapshot (fields newModel) = fields existingModel ++ [g1; g2]) /\
     (forall i, indexOf snapshot (fname g1) = Some i ->
      kept ++ appended snapshot (fields newModel) = array_set (fields existingModel) i g2)).
Proof.
  intros Hown snapshot kept.
  assert (Hclosed : fold_left (reconcile snapshot) (fields newModel) (fields existingModel)
                    = kept ++ appended snapshot (fields newModel)).
  { rewrite <- (app_nil_r (fields existingModel)) at 1.
    unfold kept, snapshot. rewrite reconcile_fold by (now rewrite length_map).
    reflexivity. }
  split; [|split; [|split]].
  - unfold mix_step, obj_get. rewrite Hown.
    rewrite (set_own _ _ _ _ Hown), merge_fields_closed. reflexivity.
  - apply keys_replace.
  - intros j g Hg. unfold kept. now rewrite (overwrite_nth _ _ _ 0 j g Hg).
  - intros g1 g2 Hnew Hsame. rewrite <- Hclosed, Hnew. simpl.
    unfold reconcile. rewrite <- Hsame. split.
    + intros Hin. rewrite Hin. now rewrite <- app_assoc.
    + intros i Hi.
      assert (Hin : includes snapshot (fname g1) = true).
      { apply includes_In. apply indexOf_first in Hi.
        destruct Hi as [Hi _]. now apply nth_error_In in Hi. }
      rewrite Hin, Hi. apply array_set_twice.
Qed.

(** Override and append where the lookup of the name finds nothing on
    [Object.prototype]: the second version replaces the payload of the field
    both versions name and its other field goes to the end. *)
Lemma override_append_merges (a a' : Model P A) (f1 f2 f2' f3 : Field P) :
  name a = name a' ->
  fields a = [f1; f2] ->
  fields a' = [f2'; f3] ->
  fname f2 = fname f2' ->
  fname f1 <> fname f2 ->
  fname f3 <> fname f1 ->
  fname f3 <> fname f2 ->
  inherited (name a) = false ->
  mixModels [a; a'] = Ok [with_fields a [f1; f2'; f3]].
Proof.
  intros Hname Hf Hf' H22 H12 H31 H32 Hinh.
  assert (Hstep1 : mix_step [] a = Ok [(name a, a)]).
  { unfold mix_step, obj_get. simpl. rewrite Hinh. unfold obj_set. simpl.
    now destruct (array_index (name a)). }
  assert (Hstep2 : mix_step [(name a, a)] a' = Ok [(name a, merge_fields a a')]).
  { unfold mix_step, obj_get. simpl. rewrite <- Hname, String.eqb_refl.
    unfold obj_set. simpl. now rewrite String.eqb_refl. }
  assert (Hmerge : merge_fields a a' = with_fields a [f1; f2'; f3]).
  { unfold merge_fields. rewrite Hf, Hf'. simpl. unfold reconcile. simpl.
    rewrite <- H22.
    apply String.eqb_neq in H12. rewrite H12. rewrite String.eqb_refl. simpl.
    assert (E1 : String.eqb (fname f1) (fname f3) = false).
    { apply String.eqb_neq. congruence. }
    assert (E2 : String.eqb (fname f2) (fname f3) = false).
    { apply String.eqb_neq. congruence. }
    now rewrite E1, E2. }
  unfold mixModels. simpl. rewrite Hstep1. simpl. rewrite Hstep2. simpl.
  now rewrite Hmerge.
Qed.

(** C2: for entities [a] and [a'] of one name, where [a] has the fields
    [f1; f2] and [a'] the fields [f2'; f3], [f2] and [f2'] having the same
    name and [f1], [f2], [f3] being fields of three different names, merging
    [a] then [a'] yields exactly one entity, [a] with the fields
    [f1; f2'; f3] -- except when the shared name is a property name that
    objects inherit from [Object.prototype]: there [models[newModel.name]]
    finds the inherited property for the very first entity and
    [existingModel.fields.map] throws a TypeError, so that nothing is
    merged. *)
Theorem mixModels_override_append (a a' : Model P A) (f1 f2 f2' f3 : Field P) :
  name a = name a' ->
  fields a = [f1; f2] ->
  fields a' = [f2'; f3] ->
  fname f2 = fname f2' ->
  fname f1 <> fname f2 ->
  fname f3 <> fname f1 ->
  fname f3 <> fname f2 ->
  mixModels [a; a'] =
    if inherited (name a) then Throw TypeError
    else Ok [with_fields a [f1; f2'; f3]].
Proof.
  intros Hname Hf Hf' H22 H12 H31 H32.
  destruct (inherited (name a)) eqn:Hinh.
  - unfold mixModels. simpl. unfold mix_step, obj_get. simpl. now rewrite Hinh.
  - now apply (override_append_merges a a' f1 f2 f2' f3).
Qed.

End ReconcileClaims.

Lemma mix_step_reconciles_witness :
  mix_step [("User", user_a)] user_d =
    Ok [("User",
         mdl "User" [fld "id" "Int"; fld "name" "String";
                     fld "email" "String"; fld "email" "String?"])].
Proof.
  apply (mix_step_reconciles [("User", user_a)] user_d user_a). reflexivity.
Defined.

(** C3 as stated fails: two same-named fields of one new entity, both new to
    the accumulated entity, are both in the result. *)
Lemma reconcile_counterexample :
  mixModels [user_a; user_d] =
    Ok [mdl "User" [fld "id" "Int"; fld "name" "String";
                    fld "email" "String"; fld "email" "String?"]] /\
  mixModels [user_a; user_d] <>
    Ok [mdl "User" [fld "id" "Int"; fld "name" "String"; fld "email" "String?"]].
Proof.
  split; [reflexivity | discriminate].
Qed.

Lemma mixModels_override_append_witness :
  mixModels [user_a; user_b] =
    Ok [mdl "User" [fld "id" "Int"; fld "name" "String?"; fld "email" "String"]] /\
  mixModels [constructor_a; constructor_b] = Throw TypeError.
Proof.
  split.
  - apply (mixModels_override_append user_a user_b
             (fld "id" "Int") (fld "name" "String")
             (fld "name" "String?") (fld "email" "String"));
      solve [reflexivity | discriminate].
  - apply (mixModels_override_append constructor_a constructor_b
             (fld "id" "Int") (fld "name" "String")
             (fld "name" "String?") (fld "email" "String"));
      solve [reflexivity | discriminate].
Defined.

(** ** Merging what is already merged *)

Lemma sorted_before (l1 l2 : list N) (i : N) :
  StronglySorted N.lt (l1 ++ i :: l2) -> Forall (fun j => (j < i)%N) l1.
Proof.
  induction l1 as [|x l1 IH]; simpl; intros H; [constructor|].
  inversion H as [|? ? Hs Hx]; subst. constructor; [|now apply IH].
  apply Forall_app in Hx. destruct Hx as [_ Hx]. now inversion Hx.
Qed.

Lemma indices_before (ks1 ks2 : list string) (k : string) :
  ks1 ++ k :: ks2 = filter is_index (ks1 ++ k :: ks2) ++ filter nonindex (ks1 ++ k :: ks2) ->
  is_index k = true ->
  Forall (fun k' => is_index k' = true) ks1.
Proof.
  intros H Hk. induction ks1 as [|x ks1 IH]; [constructor|].
  simpl in H. unfold nonindex at 1 in H. destruct (is_index x) eqn:Hx; simpl in H.
  - injection H as H. constructor; [exact Hx | now apply IH].
  - exfalso.
    assert (Hin : In k (filter is_index (ks1 ++ k :: ks2))).
    { apply filter_In. split; [|exact Hk]. apply in_or_app. right. now left. }
    destruct (filter is_index (ks1 ++ k :: ks2)) as [|h t] eqn:E; [destruct Hin|].
    simpl in H. injection H as -> _.
    assert (Hh : In h (filter is_index (ks1 ++ k :: ks2))) by (rewrite E; now left).
    apply filter_In in Hh. destruct Hh as [_ Hh]. congruence.
Qed.

Lemma smaller_indices_before (ks1 ks2 : list string) (k : string) (i : N) :
  own_key_order (ks1 ++ k :: ks2) ->
  array_index k = Some i ->
  Forall (fun k' => exists j, array_index k' = Some j /\ (j < i)%N) ks1.
Proof.
  intros [Hs Hsorted] Hk.
  assert (Hidx : Forall (fun k' => is_index k' = true) ks1).
  { apply (indices_before ks1 ks2 k Hs). unfold is_index. now rewrite Hk. }
  rewrite index_values_app, (index_values_cons_index _ _ _ Hk) in Hsorted.
  apply sorted_before in Hsorted.
  clear Hs. induction ks1 as [|x ks1 IH]; [constructor|].
  inversion Hidx as [|? ? Hx Hidx']; subst. unfold is_index in Hx.
  destruct (array_index x) as [j|] eqn:Ex; [|discriminate].
  rewrite (index_values_cons_index _ _ _ Ex) in Hsorted.
  inversion Hsorted; subst. constructor; eauto.
Qed.

Section Remerge.

Context {P A : Type}.
Implicit Types (o : JSObject (Model P A)) (ms : list (Model P A)).

(** Running the loop over the values of a well-formed mapping rebuilds it. *)
Lemma mix_loop_values o2 : forall o1,
  wf_models (o1 ++ o2) -> mix_loop o1 (Object_values o2) = Ok (o1 ++ o2).
Proof.
  induction o2 as [|[k m] o2 IH]; intros o1 Hwf; simpl.
  - now rewrite app_nil_r.
  - destruct Hwf as (Hnd & Hord & Hnamed & Hinh).
    rewrite keys_app in Hnd, Hord, Hinh. simpl in Hnd, Hord, Hinh.
    assert (Hname : name m = k).
    { unfold named_by_key in Hnamed. apply Forall_app in Hnamed.
      destruct Hnamed as [_ Hnamed]. now inversion Hnamed. }
    assert (Hfresh : own o1 k = None).
    { apply own_None. apply NoDup_remove_2 in Hnd. intros Hin. apply Hnd.
      apply in_or_app. now left. }
    assert (Hk : inherited k = false).
    { apply Forall_app in Hinh. destruct Hinh as [_ Hinh]. now inversion Hinh. }
    assert (Hstep : mix_step o1 m = Ok (o1 ++ [(k, m)])).
    { unfold mix_step, obj_get. rewrite Hname, Hfresh, Hk.
      unfold obj_set. rewrite Hfresh.
      destruct (array_index k) as [i|] eqn:Ei; [|reflexivity].
      rewrite insert_index_last; [reflexivity|].
      now apply (smaller_indices_before _ (Object_keys o2) k). }
    rewrite Hstep. simpl. rewrite IH; rewrite <- app_assoc; [reflexivity|].
    simpl. unfold wf_models. rewrite keys_app. simpl. auto.
Qed.

Lemma combine_keys ms : Object_keys (combine (map name ms) ms) = map name ms.
Proof.
  unfold Object_keys. induction ms as [|m ms IH]; simpl; [reflexivity|].
  now rewrite IH.
Qed.

Lemma combine_values ms : Object_values (combine (map name ms) ms) = ms.
Proof.
  unfold Object_values. induction ms as [|m ms IH]; simpl; [reflexivity|].
  now rewrite IH.
Qed.

Lemma own_key_order_nonindex (ks : list string) :
  Forall (fun k => is_index k = false) ks -> own_key_order ks.
Proof.
  intros H. apply own_key_order_split. exists [], ks. simpl.
  repeat split; auto; constructor.
Qed.

Lemma mix_loop_app ms1 : forall o ms2,
  mix_loop o (ms1 ++ ms2) = (o' <- mix_loop o ms1 ;; mix_loop o' ms2).
Proof.
  induction ms1 as [|m ms1 IH]; intros o ms2; simpl; [reflexivity|].
  destruct (mix_step o m) as [o1|e]; simpl; [apply IH | reflexivity].
Qed.

Lemma merge_loop_concat (entityLists : list (list (Model P A))) : forall o,
  merge_loop o entityLists = mix_loop o (List.concat entityLists).
Proof.
  induction entityLists as [|l ls IH]; intros o; simpl; [reflexivity|].
  rewrite mix_loop_app. destruct (mix_loop o l); simpl; [apply IH | reflexivity].
Qed.

(** C9, amended: for every entity list [E] whose names are pairwise distinct,
    are not found on [Object.prototype], and stand in the order in which an
    object enumerates its keys -- which they do when none of them is an array
    index -- merging with [E] as the only input returns [E] unchanged: the
    same entities in the same order, each with its fields in the same
    order. *)
Theorem merge_single (E : list (Model P A)) :
  NoDup (map name E) ->
  Forall not_inherited E ->
  own_key_order (map name E) \/ Forall (fun m => is_index (name m) = false) E ->
  merge [E] = Ok E /\ mixModels E = Ok E.
Proof.
  intros Hnd Hinh Hord.
  assert (Hord' : own_key_order (map name E)).
  { destruct Hord as [H|H]; [exact H|].
    apply own_key_order_nonindex. now apply Forall_map. }
  assert (Hwf : wf_models ([] ++ combine (map name E) E)).
  { simpl. unfold wf_models. rewrite combine_keys.
    split; [exact Hnd|]. split; [exact Hord'|]. split.
    - unfold named_by_key. clear. induction E as [|m E IH]; simpl; constructor; auto.
    - apply Forall_map. exact Hinh. }
  assert (Hloop : mix_loop [] E = Ok (combine (map name E) E)).
  { rewrite <- (combine_values E) at 1. now rewrite mix_loop_values. }
  split.
  - unfold merge. simpl. rewrite Hloop. simpl. now rewrite combine_values.
  - unfold mixModels. rewrite Hloop. simpl. now rewrite combine_values.
Qed.

(** C10: merging fragment by fragment is merging the concatenation of the
    fragments, which is what [prismix] hands to [mixModels]; and merging the
    result of a merged prefix with the rest gives the same again. *)
Theorem merge_flat :
  (forall entityLists : list (list (Model P A)),
     merge entityLists = mixModels (List.concat entityLists)) /\
  (forall (E D G : Type) (schemasToMix : list (Schema P A E D G)),
     mixModels (all_models schemasToMix) = merge (map models schemasToMix)) /\
  (forall ms1 ms2,
     mixModels (ms1 ++ ms2) = (out <- mixModels ms1 ;; mixModels (out ++ ms2))).
Proof.
  split; [|split].
  - intros ls. unfold merge, mixModels. now rewrite merge_loop_concat.
  - intros E D G ss. unfold merge, mixModels. rewrite merge_loop_concat.
    do 2 f_equal. unfold all_models.
    assert (H : forall acc, fold_left (fun ms (s : Schema P A E D G) => ms ++ models s) ss acc
                            = acc ++ List.concat (map models ss)).
    { induction ss as [|s ss IH]; intros acc; simpl.
      - now rewrite app_nil_r.
      - now rewrite IH, app_assoc. }
    apply H.
  - intros ms1 ms2. unfold mixModels. rewrite mix_loop_app.
    destruct (mix_loop [] ms1) as [o1|e] eqn:E1; simpl; [|reflexivity].
    rewrite mix_loop_app.
    assert (Hwf : wf_models o1).
    { eapply mix_loop_wf; [apply wf_models_nil | exact E1]. }
    now rewrite (mix_loop_values o1 [] Hwf).
Qed.

End Remerge.

Lemma merge_single_witness :
  merge [[user_a; post_b]] = Ok [user_a; post_b] /\
  mixModels [user_a; post_b] = Ok [user_a; post_b].
Proof.
  apply (merge_single [user_a; post_b]).
  - repeat constructor; simpl; intuition discriminate.
  - repeat constructor.
  - right. repeat constructor.
Defined.

(** C9 as stated fails: a list that holds a name twice does not come back
    unchanged, nor does a list whose names spell integers out of order. *)
Lemma merge_single_counterexample :
  merge [[user_a; user_b]] =
    Ok [mdl "User" [fld "id" "Int"; fld "name" "String?"; fld "email" "String"]] /\
  merge [[user_a; user_b]] <> Ok [user_a; user_b] /\
  merge [numbered] <> Ok numbered.
Proof.
  repeat split; discriminate.
Qed.

(** ** The Section Reducer *)

Section ReducerFacts.

Context {T : Type}.

Lemma reduceEnums_from (lists : list (option (list T))) : forall acc,
  fold_left
    (fun enums schema_enums =>
       match schema_enums with
       | Some es => enums ++ es
       | None => enums
       end)
    lists acc
  = acc ++ List.concat (map (fun s => match s with Some es => es | None => [] end) lists).
Proof.
  induction lists as [|s lists IH]; intros acc; simpl.
  - now rewrite app_nil_r.
  - rewrite IH. destruct s as [es|]; simpl; [now rewrite app_assoc | reflexivity].
Qed.

(** C5: the reduction of the enumerations is the concatenation of the
    fragments' lists in fragment order; every entry is kept, so the result
    has as many entries as the fragments together, and an enumeration that
    two fragments declare is there twice. *)
Theorem reduceEnums_concat :
  (forall lists : list (list T),
     reduceEnums (map Some lists) = List.concat lists /\
     List.length (reduceEnums (map Some lists)) =
       list_sum (map (@List.length T) lists)) /\
  (forall e1 : T, reduceEnums [Some [e1]; Some [e1]] = [e1; e1]).
Proof.
  split; [|reflexivity].
  intros lists.
  assert (H : reduceEnums (map Some lists) = List.concat lists).
  { unfold reduceEnums. rewrite reduceEnums_from, map_map, map_id. reflexivity. }
  split; [exact H|]. rewrite H. apply length_concat.
Qed.

Lemma reduceSingletons_empty (lists : list (list T)) : forall acc,
  Forall (fun l => l = []) lists ->
  fold_left (fun acc l => if (0 <? List.length l)%nat then l else acc) lists acc = acc.
Proof.
  induction lists as [|l lists IH]; intros acc H; simpl; [reflexivity|].
  inversion H as [|? ? -> H']; subst. simpl. now apply IH.
Qed.

(** C4: the reduction of a singleton section returns the list of the last
    fragment that supplied a list that is not empty, and the empty list when
    there is no such fragment. *)
Theorem reduceSingletons_last_nonempty :
  (forall lists : list (list T),
     Forall (fun l => l = []) lists -> reduceSingletons lists = []) /\
  (forall (before after : list (list T)) (l : list T),
     l <> [] -> Forall (fun l' => l' = []) after ->
     reduceSingletons (before ++ l :: after) = l) /\
  (forall c1 : T, reduceSingletons [[]; [c1]; []] = [c1]) /\
  reduceSingletons [[]; []] = @nil T.
Proof.
  split; [|split; [|split; reflexivity]].
  - intros lists H. now apply reduceSingletons_empty.
  - intros before after l Hl Hafter. unfold reduceSingletons.
    rewrite fold_left_app. simpl.
    destruct l as [|x l]; [congruence|]. simpl.
    now apply reduceSingletons_empty.
Qed.

End ReducerFacts.

Lemma reduceSingletons_last_nonempty_witness :
  reduceSingletons [[]; @nil string; []] = [] /\
  reduceSingletons ([["pg"]; []] ++ ["sqlite"] :: [[]; []]) = ["sqlite"].
Proof.
  split.
  - apply (proj1 reduceSingletons_last_nonempty). repeat constructor.
  - apply (proj1 (proj2 reduceSingletons_last_nonempty)).
    + discriminate.
    + repeat constructor.
Defined.

(** ** The Composition Orchestrator *)

Lemma truthy_filter (parts : list string) (p : string) :
  In p (filter truthy parts) <-> In p parts /\ p <> EmptyString.
Proof.
  rewrite filter_In. unfold truthy. rewrite negb_true_iff, String.eqb_neq. tauto.
Qed.

Lemma join_two (sep p q : string) : join sep [p; q] = (p ++ sep ++ q)%string.
Proof. reflexivity. Qed.

Lemma join_cons (sep p q : string) (rest : list string) :
  join sep (p :: q :: rest) = (p ++ sep ++ join sep (q :: rest))%string.
Proof. reflexivity. Qed.

Lemma separator_three_line_feeds :
  separator = String "010" (String "010" (String "010" EmptyString)) /\
  separator <> (LF ++ LF)%string.
Proof. split; [reflexivity | discriminate]. Qed.

Section OrchestratorFacts.

Context {P A E D G World : Type}.
Variable resolve : string -> string.
Variable readFile : World -> string -> Result string.
Variable writeFile : World -> string -> string -> World * Result unit.
Variable getDMMF : string -> Result (list (Model P A) * option (list E)).
Variable getConfig : string -> Result (list D * list G).
Variable deserializeDatasources : list D -> Result string.
Variable deserializeGenerators : list G -> Result string.
Variable deserializeModels : list (Model P A) -> Result string.
Variable deserializeEnums : list E -> Result string.

Local Abbreviation load_schemas' := (load_schemas resolve readFile getDMMF getConfig).
Local Abbreviation compose' :=
  (compose deserializeDatasources deserializeGenerators deserializeModels
     deserializeEnums).
Local Abbreviation mix' :=
  (mix resolve readFile writeFile getDMMF getConfig deserializeDatasources
     deserializeGenerators deserializeModels deserializeEnums).
Local Abbreviation mix_all' :=
  (mix_all resolve readFile writeFile getDMMF getConfig deserializeDatasources
     deserializeGenerators deserializeModels deserializeEnums).
Local Abbreviation prismix' :=
  (prismix resolve readFile writeFile getDMMF getConfig deserializeDatasources
     deserializeGenerators deserializeModels deserializeEnums).

(** Loading reads the file system and leaves it as it is. *)
Lemma load_schemas_world (inputs : list string) :
  forall (acc : list (Schema P A E D G)) (w : World),
    fst (load_schemas' inputs acc w) = w.
Proof.
  induction inputs as [|i inputs IH]; intros acc w; simpl; [reflexivity|].
  destruct (readFile w (resolve i)) as [text|e]; simpl; [|reflexivity].
  destruct (getDMMF text) as [dmmf|e]; simpl; [|reflexivity].
  destruct (getConfig text) as [config|e]; simpl; [|reflexivity].
  apply IH.
Qed.

(** A job whose loading fails writes nothing. *)
Lemma mix_load_failure (mixer : MixerOptions) (w : World) (e : Error) :
  snd (load_schemas' (input mixer) [] w) = Throw e ->
  mix' mixer w = (w, Throw e).
Proof.
  intros H. unfold mix. assert (Hw := load_schemas_world (input mixer) [] w).
  destruct (load_schemas' (input mixer) [] w) as [w' r]. simpl in *.
  subst. reflexivity.
Qed.

Lemma mix_all_app (before after : list MixerOptions) : forall w,
  mix_all' (before ++ after) w =
  match mix_all' before w with
  | (w', Ok _) => mix_all' after w'
  | (w', Throw e) => (w', Throw e)
  end.
Proof.
  induction before as [|m before IH]; intros w; simpl; [reflexivity|].
  destruct (mix' m w) as [w' [[]|e]]; [apply IH | reflexivity].
Qed.

(** C6, amended: [prismix] runs the jobs in order and stops at the first one
    that fails.  The jobs before it have run, the failing job leaves the file
    system as its failure left it (untouched, when the failure is that of
    loading an input), no later job runs, and the error of the failing job
    is thrown to the caller. *)
Theorem prismix_stops_at_failure (before after : list MixerOptions)
    (job : MixerOptions) (w w1 : World) :
  mix_all' before w = (w1, Ok tt) ->
  (forall w2 e, mix' job w1 = (w2, Throw e) ->
     prismix' (mkPrismixOptions (before ++ job :: after)) w = (w2, Throw e)) /\
  (forall e, snd (load_schemas' (input job) [] w1) = Throw e ->
     prismix' (mkPrismixOptions (before ++ job :: after)) w = (w1, Throw e)).
Proof.
  intros Hbefore.
  assert (Hgen : forall w2 e, mix' job w1 = (w2, Throw e) ->
            prismix' (mkPrismixOptions (before ++ job :: after)) w = (w2, Throw e)).
  { intros w2 e Hjob. unfold prismix. simpl. rewrite mix_all_app, Hbefore.
    simpl. now rewrite Hjob. }
  split; [exact Hgen|].
  intros e Hload. apply Hgen. now apply mix_load_failure.
Qed.

(** C7, amended: the text a job writes is obtained by rendering the four
    sections in the order connection configs, generator configs, entities,
    enumerations, dropping the renderings that are empty, and joining the
    others with three line feeds (two blank lines) between them. *)
Theorem mix_output_text (mixer : MixerOptions) (w w' : World)
    (schemasToMix : list (Schema P A E D G)) (ms : list (Model P A))
    (r1 r2 r3 r4 : string) :
  load_schemas' (input mixer) [] w = (w', Ok schemasToMix) ->
  mixModels (all_models schemasToMix) = Ok ms ->
  deserializeDatasources (reduceSingletons (map datasources schemasToMix)) = Ok r1 ->
  deserializeGenerators (reduceSingletons (map generators schemasToMix)) = Ok r2 ->
  deserializeModels ms = Ok r3 ->
  deserializeEnums (reduceEnums (map enums schemasToMix)) = Ok r4 ->
  mix' mixer w =
    writeFile w' (resolve (output mixer))
      (join (LF ++ LF ++ LF) (filter truthy [r1; r2; r3; r4])) /\
  (forall p, In p (filter truthy [r1; r2; r3; r4]) <->
             In p [r1; r2; r3; r4] /\ p <> EmptyString) /\
  (truthy r1 = true -> truthy r2 = true -> truthy r3 = true -> truthy r4 = true ->
   join (LF ++ LF ++ LF) (filter truthy [r1; r2; r3; r4]) =
   (r1 ++ LF ++ LF ++ LF ++ r2 ++ LF ++ LF ++ LF ++ r3 ++ LF ++ LF ++ LF ++ r4)%string).
Proof.
  intros Hload Hmix H1 H2 H3 H4. split; [|split].
  - unfold mix. rewrite Hload. unfold compose.
    rewrite Hmix. simpl. rewrite H1. simpl. rewrite H2. simpl.
    rewrite H3. simpl. rewrite H4. reflexivity.
  - intros p. apply truthy_filter.
  - intros T1 T2 T3 T4. simpl. rewrite T1, T2, T3, T4. reflexivity.
Qed.

End OrchestratorFacts.

Lemma prismix_stops_at_failure_witness :
  toy_prismix (mkPrismixOptions ([job_valid] ++ job_missing :: [job_valid])) disk =
  (fs_put disk "two.prisma" (join separator ["B"; "A,B"; "A,B"]),
   Throw (Rejected "ENOENT")).
Proof.
  apply (prismix_stops_at_failure (fun p => p) fs_read fs_write toy_getDMMF
           toy_getConfig toy_render toy_render toy_render_models toy_render
           [job_valid] [job_valid] job_missing disk
           (fs_put disk "two.prisma" (join separator ["B"; "A,B"; "A,B"]))
           eq_refl);
    reflexivity.
Defined.

(** C6 as stated fails: the second job is valid, and alone it writes its
    output, but after a first job that fails nothing is written. *)
Lemma prismix_isolation_counterexample :
  toy_prismix (mkPrismixOptions [job_valid]) disk =
    (fs_put disk "two.prisma" (join separator ["B"; "A,B"; "A,B"]), Ok tt) /\
  toy_prismix (mkPrismixOptions [job_missing; job_valid]) disk =
    (disk, Throw (Rejected "ENOENT")) /\
  fs_read (fst (toy_prismix (mkPrismixOptions [job_missing; job_valid]) disk))
    "two.prisma" = Throw (Rejected "ENOENT").
Proof.
  repeat split.
Qed.

Lemma mix_output_text_witness :
  toy_prismix (mkPrismixOptions [job_valid]) disk =
  fs_write disk "two.prisma"
    (join (LF ++ LF ++ LF) (filter truthy ["B"; ""; "A,B"; "A,B"])).
Proof.
  apply (mix_output_text (fun p => p) fs_read fs_write toy_getDMMF
           toy_getConfig toy_render toy_render toy_render_models toy_render
           job_valid disk disk
           [mkSchema [mdl "A" []] (Some ["A"]) ["A"] [];
            mkSchema [mdl "B" []] (Some ["B"]) ["B"] []]
           [mdl "A" []; mdl "B" []] "B" "" "A,B" "A,B");
    reflexivity.
Defined.

(** C7 as stated fails: the sections are three line feeds apart, not two. *)
Lemma mix_output_text_counterexample :
  fs_read (fst (toy_prismix (mkPrismixOptions [job_valid]) disk)) "two.prisma" =
    Ok ("B" ++ LF ++ LF ++ LF ++ "A,B" ++ LF ++ LF ++ LF ++ "A,B")%string /\
  fs_read (fst (toy_prismix (mkPrismixOptions [job_valid]) disk)) "two.prisma" <>
    Ok (join (LF ++ LF) (filter truthy ["B"; ""; "A,B"; "A,B"])).
Proof.
  split; [reflexivity | discriminate].
Qed.

(** * Further properties of the code *)

(** ** Looking up what was assigned *)

Section OwnFacts.

Context {V : Type}.
Implicit Types (o : JSObject V) (k : string) (v : V).

Lemma own_replace o k v k' :
  own o k <> None ->
  own (obj_replace o k v) k' = if String.eqb k k' then Some v else own o k'.
Proof.
  induction o as [|[k0 v0] o IH]; simpl; [congruence|].
  destruct (String.eqb k0 k) eqn:E0.
  - apply String.eqb_eq in E0. subst k0. intros _. simpl.
    now destruct (String.eqb k k').
  - intros H. simpl. destruct (String.eqb k0 k') eqn:E1.
    + apply String.eqb_eq in E1. subst k'.
      rewrite String.eqb_sym, E0. reflexivity.
    + now apply IH.
Qed.

Lemma own_insert_index o k i v k' :
  own o k = None ->
  own (obj_insert_index o k i v) k' = if String.eqb k k' then Some v else own o k'.
Proof.
  induction o as [|[k0 v0] o IH]; simpl; [reflexivity|].
  destruct (String.eqb k0 k) eqn:E0; [discriminate|]. intros H.
  assert (Hhere : own ((k, v) :: (k0, v0) :: o) k' =
                  if String.eqb k k' then Some v
                  else if String.eqb k0 k' then Some v0 else own o k')
    by reflexivity.
  destruct (array_index k0) as [j|]; [destruct (j <? i)%N|]; try exact Hhere.
  simpl. rewrite (IH H). destruct (String.eqb k0 k') eqn:E1; [|reflexivity].
  apply String.eqb_eq in E1. subst k'. now rewrite String.eqb_sym, E0.
Qed.

Lemma own_append o k v k' :
  own o k = None ->
  own (o ++ [(k, v)]) k' = if String.eqb k k' then Some v else own o k'.
Proof.
  induction o as [|[k0 v0] o IH]; simpl; [reflexivity|].
  destruct (String.eqb k0 k) eqn:E0; [discriminate|]. intros H.
  rewrite (IH H). destruct (String.eqb k0 k') eqn:E1; [|reflexivity].
  apply String.eqb_eq in E1. subst k'. now rewrite String.eqb_sym, E0.
Qed.

(** Reading a key after an assignment: the value assigned under that key,
    what was there before under any other. *)
Lemma own_set o k v k' :
  own (obj_set o k v) k' = if String.eqb k k' then Some v else own o k'.
Proof.
  unfold obj_set. destruct (own o k) as [v0|] eqn:E.
  - apply own_replace. congruence.
  - destruct (array_index k); [now apply own_insert_index | now apply own_append].
Qed.

Lemma own_In_NoDup o k v :
  NoDup (Object_keys o) -> In (k, v) o -> own o k = Some v.
Proof.
  induction o as [|[k0 v0] o IH]; simpl; [tauto|].
  intros Hnd [[= -> ->]|Hin].
  - now rewrite String.eqb_refl.
  - inversion Hnd as [|? ? Hk0 Hnd']; subst.
    destruct (String.eqb k0 k) eqn:E; [|now apply IH].
    apply String.eqb_eq in E. subst k0. exfalso. apply Hk0.
    now apply (in_map fst) in Hin.
Qed.

End OwnFacts.

(** ** One name at a time *)

Section ByName.

Context {P A : Type}.
Implicit Types (o : JSObject (Model P A)) (m e : Model P A)
  (ms out : list (Model P A)) (k : string).

Lemma mix_step_own o m o' k :
  mix_step o m = Ok o' ->
  own o' k = if named k m then merge_into (own o k) m else own o k.
Proof.
  unfold mix_step, obj_get, named. intros H.
  destruct (own o (name m)) as [e0|] eqn:E.
  - injection H as <-. rewrite own_set.
    destruct (String.eqb (name m) k) eqn:Ek; [|reflexivity].
    apply String.eqb_eq in Ek. subst k. now rewrite E.
  - destruct (inherited (name m)); [discriminate|]. injection H as <-.
    rewrite own_set. destruct (String.eqb (name m) k) eqn:Ek; [|reflexivity].
    apply String.eqb_eq in Ek. subst k. now rewrite E.
Qed.

(** What the mapping holds under [k] after the loop depends on the models
    called [k] alone. *)
Lemma mix_loop_own ms : forall o o' k,
  mix_loop o ms = Ok o' -> own o' k = merged_entity k ms (own o k).
Proof.
  induction ms as [|m ms IH]; simpl; intros o o' k H.
  - now injection H as <-.
  - apply bind_Ok_inv in H. destruct H as (o1 & H1 & H2).
    rewrite (IH _ _ k H2), (mix_step_own _ _ _ k H1). reflexivity.
Qed.

Lemma merged_entity_filter k ms : forall start,
  merged_entity k (filter (named k) ms) start = merged_entity k ms start.
Proof.
  unfold merged_entity. induction ms as [|m ms IH]; intros start; simpl; [reflexivity|].
  destruct (named k m) eqn:E; simpl; [rewrite E|]; apply IH.
Qed.

Lemma values_own o e :
  wf_models o -> In e (Object_values o) <-> own o (name e) = Some e.
Proof.
  intros (Hnd & _ & Hnamed & _). split.
  - intros H. apply in_map_iff in H. destruct H as ([k v] & <- & Hin).
    unfold named_by_key in Hnamed. rewrite Forall_forall in Hnamed.
    assert (Hk := Hnamed _ Hin). simpl in *. rewrite Hk.
    now apply own_In_NoDup.
  - intros H. apply own_Some_In in H. now apply (in_map snd) in H.
Qed.

(** The entities of one name in a well-formed mapping: the one filed under
    that name, if any. *)
Lemma filter_named_values o k :
  wf_models o ->
  filter (named k) (Object_values o) =
  match own o k with
  | Some e => [e]
  | None => []
  end.
Proof.
  intros (Hnd & _ & Hnamed & _). clear -Hnd Hnamed.
  induction o as [|[k0 v0] o IH]; simpl; [reflexivity|].
  inversion Hnd as [|? ? Hk0 Hnd']; subst.
  inversion Hnamed as [|? ? Hv0 Hnamed']; subst. simpl in Hv0.
  unfold named at 1. rewrite Hv0. destruct (String.eqb k0 k) eqn:E.
  - apply String.eqb_eq in E.
    assert (Hnone : own o k = None).
    { apply own_None. rewrite <- E. exact Hk0. }
    rewrite (IH Hnd' Hnamed'), Hnone. reflexivity.
  - now apply IH.
Qed.

(** In a mapping that [mixModels] has built a name found on
    [Object.prototype] makes the step throw. *)
Lemma mix_loop_inherited ms : forall o,
  wf_models o ->
  Exists (fun m => inherited (name m) = true) ms ->
  mix_loop o ms = Throw TypeError.
Proof.
  induction ms as [|m ms IH]; intros o Hwf Hex; [inversion Hex|].
  simpl. destruct (mix_step o m) as [o1|e] eqn:E; simpl.
  - apply IH; [eapply mix_step_wf; eauto|].
    inversion Hex as [? ? Hm|? ? Hms]; subst; [|exact Hms].
    exfalso. destruct (mix_step_Ok _ _ _ E) as [(e0 & He0 & _)|(_ & Hni & _)];
      [|congruence].
    destruct Hwf as (_ & _ & _ & Hinh). rewrite Forall_forall in Hinh.
    apply own_Some_In in He0. apply (in_map fst) in He0.
    specialize (Hinh _ He0). simpl in Hinh. congruence.
  - apply mix_step_Throw in E. now destruct E as (-> & _).
Qed.

(** X1: [mixModels] throws exactly when the name of some input model is a
    property name that objects inherit from [Object.prototype] (constructor,
    toString, valueOf, ...); what it throws is a TypeError, and on every
    other input it returns a list. *)
Theorem mixModels_throws ms :
  (forall err, mixModels ms = Throw err ->
     err = TypeError /\ Exists (fun m => inherited (name m) = true) ms) /\
  (Exists (fun m => inherited (name m) = true) ms ->
   mixModels ms = Throw TypeError) /\
  (Forall (fun m => inherited (name m) = false) ms ->
   exists out, mixModels ms = Ok out).
Proof.
  split; [|split].
  - intros err H. unfold mixModels in H.
    destruct (mix_loop [] ms) as [o|e'] eqn:E; simpl in H; [discriminate|].
    injection H as ->. destruct (mix_loop_throws _ _ _ E) as (-> & m & Hin & Hm).
    split; [reflexivity|]. apply Exists_exists. eauto.
  - intros H. unfold mixModels.
    now rewrite (mix_loop_inherited ms [] wf_models_nil H).
  - apply mixModels_returns.
Qed.

(** X2: entities of different names never influence each other: the entities
    called [k] in the merged list are what merging the input models called
    [k] alone returns. *)
Theorem mixModels_by_name ms out k :
  mixModels ms = Ok out ->
  mixModels (filter (named k) ms) = Ok (filter (named k) out).
Proof.
  intros H. destruct (mixModels_Ok_inv _ _ H) as (o & Ho & -> & Hwf).
  assert (Hni : Forall not_inherited (filter (named k) ms)).
  { apply Forall_forall. intros m Hm. apply filter_In in Hm. destruct Hm as [Hm _].
    unfold not_inherited. destruct (inherited (name m)) eqn:E; [|reflexivity].
    assert (Hex : Exists (fun m => inherited (name m) = true) ms)
      by (apply Exists_exists; eauto).
    rewrite (mix_loop_inherited ms [] wf_models_nil Hex) in Ho. discriminate. }
  destruct (mixModels_returns _ Hni) as (out' & Hout').
  rewrite Hout'. f_equal.
  destruct (mixModels_Ok_inv _ _ Hout') as (o' & Ho' & -> & Hwf').
  assert (Hall : Forall (fun e => named k e = true) (Object_values o')).
  { apply Forall_forall. intros e He. apply (values_own _ _ Hwf') in He.
    apply own_Some_In in He. apply (in_map fst) in He. simpl in He.
    apply (mix_loop_keys_In _ _ _ (name e) Ho') in He.
    destruct He as [[]|He]. apply in_map_iff in He.
    destruct He as (m & Hm & Hin). apply filter_In in Hin.
    unfold named in *. now rewrite <- Hm. }
  rewrite <- (filter_all _ _ Hall).
  rewrite (filter_named_values _ k Hwf), (filter_named_values _ k Hwf').
  rewrite (mix_loop_own _ _ _ k Ho), (mix_loop_own _ _ _ k Ho').
  now rewrite merged_entity_filter.
Qed.

(** X3: the merged list is a fixed point of the merger: merging what
    [mixModels] has returned returns it unchanged. *)
Theorem mixModels_idempotent ms out :
  mixModels ms = Ok out -> mixModels out = Ok out.
Proof.
  intros H. destruct (mixModels_Ok_inv _ _ H) as (o & _ & -> & Hwf).
  unfold mixModels. now rewrite (mix_loop_values o [] Hwf).
Qed.

End ByName.

Lemma mixModels_throws_witness :
  (TypeError = TypeError /\
   Exists (fun m => inherited (name m) = true)
     [user_a; mdl "toString" [fld "id" "Int"]]) /\
  mixModels [user_a; mdl "toString" [fld "id" "Int"]] = Throw TypeError /\
  (exists out, mixModels [user_a; post_b] = Ok out).
Proof.
  split; [|split].
  - apply (proj1 (mixModels_throws [user_a; mdl "toString" [fld "id" "Int"]])).
    reflexivity.
  - apply (proj1 (proj2 (mixModels_throws [user_a; mdl "toString" [fld "id" "Int"]]))).
    apply Exists_cons_tl, Exists_cons_hd. reflexivity.
  - apply (proj2 (proj2 (mixModels_throws [user_a; post_b]))). repeat constructor.
Defined.

Lemma mixModels_by_name_witness :
  mixModels (filter (named "User") [user_a; post_b; user_b]) =
  Ok (filter (named "User")
        [mdl "User" [fld "id" "Int"; fld "name" "String?"; fld "email" "String"];
         post_b]).
Proof.
  apply (mixModels_by_name [user_a; post_b; user_b]). reflexivity.
Defined.

Lemma mixModels_idempotent_witness :
  mixModels [mdl "User" [fld "id" "Int"; fld "name" "String?"; fld "email" "String"];
             post_b]
  = Ok [mdl "User" [fld "id" "Int"; fld "name" "String?"; fld "email" "String"];
        post_b].
Proof.
  apply (mixModels_idempotent [user_a; post_b; user_b]). reflexivity.
Defined.


(** ** The fields of a merged entity *)

Lemma last_In_or {T : Type} (l : list T) : forall d,
  last l d = d \/ In (last l d) l.
Proof.
  induction l as [|x l IH]; intros d; [now left|]. right.
  rewrite last_cons. destruct (IH x) as [H|H]; [rewrite H; now left | now right].
Qed.

Lemma last_all_eq {T : Type} (l : list T) (x d : T) :
  In x l -> (forall y, In y l -> y = x) -> last l d = x.
Proof.
  intros Hin Hall. destruct (last_In_or l d) as [H|H]; [|now apply Hall].
  destruct l as [|y l]; [destruct Hin|].
  rewrite last_cons in *. destruct (last_In_or l y) as [H'|H'].
  - rewrite H'. apply Hall. now left.
  - apply Hall. now right.
Qed.

Lemma NoDup_map_inj {T U : Type} (g : T -> U) (l : list T) (a b : T) :
  NoDup (map g l) -> In a l -> In b l -> g a = g b -> a = b.
Proof.
  induction l as [|x l IH]; simpl; [tauto|].
  intros Hnd Ha Hb Hg. inversion Hnd as [|? ? Hx Hnd']; subst.
  destruct Ha as [->|Ha], Hb as [->|Hb]; auto.
  - exfalso. apply Hx. rewrite Hg. now apply in_map.
  - exfalso. apply Hx. rewrite <- Hg. now apply in_map.
Qed.

Lemma filter_map_swap {T U : Type} (g : T -> U) (p : U -> bool) (l : list T) :
  filter p (map g l) = map g (filter (fun x => p (g x)) l).
Proof.
  induction l as [|x l IH]; simpl; [reflexivity|].
  destruct (p (g x)); simpl; now rewrite IH.
Qed.

Lemma In_array_set {T : Type} (a : list T) (i : nat) (x y : T) :
  In y (array_set a i x) -> In y a \/ y = x.
Proof.
  revert i. induction a as [|z a IH]; intros [|i]; simpl; try tauto.
  - intros [<-|H]; auto.
  - intros [<-|H]; auto. destruct (IH _ H); auto.
Qed.

Section MergedFields.

Context {P A : Type}.
Implicit Types (f g : Field P) (old new : list (Field P)) (m e : Model P A)
  (ms out : list (Model P A)) (k : string).

Lemma writes_at_name names i new f :
  In f (writes_at names i new) -> In f new /\ nth_error names i = Some (fname f).
Proof.
  unfold writes_at. rewrite filter_In. intros [Hin H]. split; [exact Hin|].
  destruct (indexOf names (fname f)) as [j|] eqn:E; [|discriminate].
  apply Nat.eqb_eq in H. subst j. now apply indexOf_first in E.
Qed.

(** Assigning at the index of a name leaves the names where they are. *)
Lemma overwrite_names names new : forall old i0,
  (forall j g, nth_error old j = Some g -> nth_error names (i0 + j) = Some (fname g)) ->
  map fname (overwrite names new i0 old) = map fname old.
Proof.
  induction old as [|g old IH]; intros i0 H; simpl; [reflexivity|]. f_equal.
  - assert (Hg := H 0 g eq_refl). rewrite Nat.add_0_r in Hg.
    destruct (last_In_or (writes_at names i0 new) g) as [->|Hin]; [reflexivity|].
    apply writes_at_name in Hin. destruct Hin as [_ Hin]. congruence.
  - apply IH. intros j g' Hj. rewrite <- (H (S j) g' Hj). f_equal. lia.
Qed.

(** The field names after a merge: those of the accumulated entity where
    they were, then the names of the appended fields. *)
Lemma merge_fields_names e m :
  field_names (merge_fields e m) =
  field_names e ++
  filter (fun n => negb (includes (field_names e) n)) (field_names m).
Proof.
  rewrite merge_fields_closed. unfold field_names, with_fields. simpl.
  rewrite map_app. f_equal.
  - apply overwrite_names. intros j g Hj. simpl. now apply map_nth_error.
  - unfold appended. now rewrite filter_map_swap.
Qed.

Lemma merge_fields_names_add e m :
  NoDup (field_names m) ->
  field_names (merge_fields e m) = fold_left add_new (field_names m) (field_names e).
Proof.
  intros H. now rewrite merge_fields_names, fold_add_new, (first_seen_NoDup_id _ H).
Qed.

Lemma reconcile_In names fs f g :
  In g (reconcile names fs f) -> In g fs \/ g = f.
Proof.
  unfold reconcile. destruct (includes names (fname f)).
  - destruct (indexOf names (fname f)); [apply In_array_set | tauto].
  - rewrite in_app_iff. simpl. intuition.
Qed.

Lemma merge_fields_In e m g :
  In g (fields (merge_fields e m)) -> In g (fields e) \/ In g (fields m).
Proof.
  unfold merge_fields, with_fields. simpl.
  generalize (map fname (fields e)) as names. intros names.
  generalize (fields e) as fs. induction (fields m) as [|f new IH]; intros fs; simpl.
  - tauto.
  - intros H. destruct (IH _ H) as [H'|H']; [|tauto].
    destruct (reconcile_In _ _ _ _ H'); auto.
Qed.

(** A model without repeated field names leaves every one of its fields in
    the entity it is merged into. *)
Lemma merge_fields_keeps_new e m f :
  NoDup (field_names m) -> In f (fields m) -> In f (fields (merge_fields e m)).
Proof.
  intros Hnd Hin. rewrite merge_fields_closed. unfold with_fields. simpl.
  apply in_or_app.
  destruct (includes (map fname (fields e)) (fname f)) eqn:E.
  - left. destruct (indexOf_includes _ _ E) as (i & Hi & Hlt).
    rewrite length_map in Hlt.
    destruct (nth_error (fields e) i) as [g|] eqn:Eg;
      [|apply nth_error_None in Eg; lia].
    apply (nth_error_In _ i).
    rewrite (overwrite_nth _ _ _ 0 i g Eg). simpl. f_equal.
    apply last_all_eq.
    + unfold writes_at. apply filter_In. split; [exact Hin|].
      rewrite Hi. apply Nat.eqb_refl.
    + intros f' Hf'. apply writes_at_name in Hf'. destruct Hf' as [Hin' Hn'].
      apply indexOf_first in Hi. destruct Hi as [Hi _].
      apply (NoDup_map_inj fname (fields m)); auto. congruence.
  - right. unfold appended. apply filter_In. split; [exact Hin|]. now rewrite E.
Qed.

Lemma merge_fields_name e m : name (merge_fields e m) = name e.
Proof. reflexivity. Qed.

Lemma merge_fields_attrs e m : attrs (merge_fields e m) = attrs e.
Proof. reflexivity. Qed.

Lemma merged_entity_skip k ms : forall start,
  Forall (fun m => named k m = false) ms -> merged_entity k ms start = start.
Proof.
  unfold merged_entity. induction ms as [|m ms IH]; intros start H; [reflexivity|].
  inversion H as [|? ? Hm Hms]; subst. simpl. rewrite Hm. now apply IH.
Qed.

Lemma merged_entity_app k ms1 ms2 start :
  merged_entity k (ms1 ++ ms2) start = merged_entity k ms2 (merged_entity k ms1 start).
Proof. apply fold_left_app. Qed.

(** An accumulated entity keeps its name, its attributes and the names of
    its fields, in their places, whatever is merged into it. *)
Lemma merged_entity_from k ms : forall e0 e,
  merged_entity k ms (Some e0) = Some e ->
  name e = name e0 /\ attrs e = attrs e0 /\
  exists tail, field_names e = field_names e0 ++ tail.
Proof.
  induction ms as [|m ms IH]; intros e0 e; simpl.
  - intros [= <-]. repeat split. exists []. now rewrite app_nil_r.
  - destruct (named k m).
    + intros H. destruct (IH _ _ H) as (Hn & Ha & tail & Ht).
      split; [exact Hn|]. split; [exact Ha|].
      rewrite merge_fields_names in Ht. rewrite <- app_assoc in Ht. eauto.
    + apply IH.
Qed.

(** The merged entity starts from the first model of its name. *)
Lemma merged_entity_first k ms : forall e,
  merged_entity k ms None = Some e ->
  exists ms1 m ms2,
    ms = ms1 ++ m :: ms2 /\
    Forall (fun m' => named k m' = false) ms1 /\
    named k m = true /\
    merged_entity k ms2 (Some m) = Some e.
Proof.
  induction ms as [|m ms IH]; intros e; simpl; [discriminate|].
  destruct (named k m) eqn:E.
  - intros H. exists [], m, ms. repeat split; auto.
  - intros H. destruct (IH _ H) as (ms1 & m' & ms2 & -> & H1 & H2 & H3).
    exists (m :: ms1), m', ms2. repeat split; auto.
Qed.

Lemma merged_entity_In k ms : forall start e g,
  merged_entity k ms start = Some e -> In g (fields e) ->
  (exists e0, start = Some e0 /\ In g (fields e0)) \/
  (exists m, In m ms /\ named k m = true /\ In g (fields m)).
Proof.
  induction ms as [|m ms IH]; intros start e g; simpl.
  - intros -> Hg. left. eauto.
  - destruct (named k m) eqn:E.
    + intros H Hg.
      destruct (IH _ _ _ H Hg) as [(e0 & Heq & Hg0)|(m' & Hin & Hk & Hg')].
      * unfold merge_into in Heq. injection Heq as <-. destruct start as [e1|].
        -- destruct (merge_fields_In _ _ _ Hg0) as [H1|H1].
           ++ left. eauto.
           ++ right. exists m. auto.
        -- right. exists m. auto.
      * right. exists m'. auto.
    + intros H Hg. destruct (IH _ _ _ H Hg) as [Hl|(m' & Hin & Hk & Hg')]; [now left|].
      right. exists m'. auto.
Qed.

End MergedFields.

Section MergedEntities.

Context {P A : Type}.
Implicit Types (m e : Model P A) (ms out : list (Model P A)) (k : string).

(** The entities of the merged list are the models of each name, merged. *)
Lemma mixModels_In_merged ms out e :
  mixModels ms = Ok out ->
  In e out <-> merged_entity (name e) ms None = Some e.
Proof.
  intros H. destruct (mixModels_Ok_inv _ _ H) as (o & Ho & -> & Hwf).
  rewrite (values_own _ _ Hwf), (mix_loop_own _ _ _ (name e) Ho). reflexivity.
Qed.

Lemma named_false k m : named k m = false <-> name m <> k.
Proof. unfold named. apply String.eqb_neq. Qed.

Lemma named_true k m : named k m = true <-> name m = k.
Proof. unfold named. apply String.eqb_eq. Qed.

Lemma merged_entity_names k ms :
  Forall (fun m => NoDup (field_names m)) ms ->
  forall start e,
    merged_entity k ms start = Some e ->
    field_names e =
    fold_left add_new (field_names_of k ms)
      (match start with Some e0 => field_names e0 | None => [] end).
Proof.
  induction 1 as [|m ms Hm _ IH]; intros start e; simpl.
  - intros ->. reflexivity.
  - unfold field_names_of. simpl. destruct (named k m) eqn:E.
    + intros H. rewrite (IH _ _ H). simpl. rewrite fold_left_app. f_equal.
      destruct start as [e0|].
      * now apply merge_fields_names_add.
      * now rewrite fold_add_new_nil, first_seen_NoDup_id.
    + apply IH.
Qed.

Lemma merged_entity_name k ms e :
  merged_entity k ms None = Some e -> name e = k.
Proof.
  intros H. destruct (merged_entity_first _ _ _ H) as (ms1 & m & ms2 & _ & _ & Hm & H').
  destruct (merged_entity_from _ _ _ _ H') as (Hn & _). rewrite Hn.
  now apply named_true.
Qed.

(** X4: a merged entity is the first model of its name with fields replaced
    and appended: it has the attributes of that first model, whatever the
    later models of the name carry, and the field names of the first model
    stay at the head of its field list, in their order. *)
Theorem merged_entity_keeps_first ms out e :
  mixModels ms = Ok out ->
  In e out ->
  exists ms1 m ms2,
    ms = ms1 ++ m :: ms2 /\
    Forall (fun m' => name m' <> name e) ms1 /\
    name m = name e /\
    attrs e = attrs m /\
    exists tail, field_names e = field_names m ++ tail.
Proof.
  intros H Hin. apply (mixModels_In_merged _ _ _ H) in Hin.
  destruct (merged_entity_first _ _ _ Hin) as (ms1 & m & ms2 & -> & H1 & H2 & H3).
  destruct (merged_entity_from _ _ _ _ H3) as (Hn & Ha & Ht).
  exists ms1, m, ms2. split; [reflexivity|]. split.
  - eapply Forall_impl; [|exact H1]. intros m'. apply named_false.
  - split; [now apply named_true|]. split; [exact Ha | exact Ht].
Qed.

(** X5: the merger invents no field: every field of a merged entity is, as it
    stands, a field of some input model of that name. *)
Theorem merged_fields_from_input ms out e (g : Field P) :
  mixModels ms = Ok out ->
  In e out ->
  In g (fields e) ->
  exists m, In m ms /\ name m = name e /\ In g (fields m).
Proof.
  intros H Hin Hg. apply (mixModels_In_merged _ _ _ H) in Hin.
  destruct (merged_entity_In _ _ _ _ _ Hin Hg) as [(e0 & [=] & _)|(m & Hm & Hk & Hgm)].
  exists m. split; [exact Hm|]. split; [now apply named_true | exact Hgm].
Qed.

(** X6: the last write wins: every field of the last input model of a name
    is in the merged entity of that name as the model has it, provided the
    model does not repeat a field name. *)
Theorem last_model_wins ms1 m ms2 out :
  mixModels (ms1 ++ m :: ms2) = Ok out ->
  Forall (fun m' => name m' <> name m) ms2 ->
  NoDup (field_names m) ->
  exists e, In e out /\ name e = name m /\ incl (fields m) (fields e).
Proof.
  intros H Hlast Hnd.
  assert (Hskip : Forall (fun m' => named (name m) m' = false) ms2).
  { eapply Forall_impl; [|exact Hlast]. intros m'. apply named_false. }
  assert (Hm : named (name m) m = true) by now apply named_true.
  assert (Hmerged : merged_entity (name m) (ms1 ++ m :: ms2) None =
                    merge_into (merged_entity (name m) ms1 None) m).
  { rewrite merged_entity_app.
    change (merged_entity (name m) (m :: ms2) ?s)
      with (merged_entity (name m) ms2 (if named (name m) m then merge_into s m else s)).
    now rewrite Hm, merged_entity_skip. }
  unfold merge_into in Hmerged.
  destruct (merged_entity (name m) ms1 None) as [e0|].
  - exists (merge_fields e0 m).
    assert (Hname : name (merge_fields e0 m) = name m)
      by exact (merged_entity_name _ _ _ Hmerged).
    split; [|split; [exact Hname|]].
    + apply (mixModels_In_merged _ _ _ H). now rewrite Hname.
    + intros f Hf. now apply merge_fields_keeps_new.
  - exists m. split; [|split; [reflexivity | apply incl_refl]].
    now apply (mixModels_In_merged _ _ _ H).
Qed.

(** X7: when no input model repeats a field name, the field names of a
    merged entity are the distinct field names of the input models of its
    name, in the order of their first occurrence in the stream; no field
    name occurs twice in a merged entity. *)
Theorem merged_field_order ms out e :
  mixModels ms = Ok out ->
  Forall (fun m => NoDup (field_names m)) ms ->
  In e out ->
  field_names e = first_seen (field_names_of (name e) ms) /\
  NoDup (field_names e).
Proof.
  intros H Hnd Hin. apply (mixModels_In_merged _ _ _ H) in Hin.
  assert (Hn := merged_entity_names (name e) ms Hnd None e Hin).
  simpl in Hn. rewrite fold_add_new_nil in Hn.
  split; [exact Hn|]. rewrite Hn. apply first_seen_NoDup.
Qed.

End MergedEntities.

Lemma merged_entity_keeps_first_witness :
  exists ms1 m ms2,
    [user_a; post_b; user_b] = ms1 ++ m :: ms2 /\
    Forall (fun m' => name m' <> "User") ms1 /\
    name m = "User" /\
    tt = attrs m /\
    exists tail, ["id"; "name"; "email"] = field_names m ++ tail.
Proof.
  apply (merged_entity_keeps_first [user_a; post_b; user_b]
           [mdl "User" [fld "id" "Int"; fld "name" "String?"; fld "email" "String"];
            post_b]
           (mdl "User" [fld "id" "Int"; fld "name" "String?"; fld "email" "String"])).
  - reflexivity.
  - now left.
Defined.

Lemma merged_fields_from_input_witness :
  exists m, In m [user_a; post_b; user_b] /\ name m = "User" /\
            In (fld "name" "String?") (fields m).
Proof.
  apply (merged_fields_from_input [user_a; post_b; user_b]
           [mdl "User" [fld "id" "Int"; fld "name" "String?"; fld "email" "String"];
            post_b]
           (mdl "User" [fld "id" "Int"; fld "name" "String?"; fld "email" "String"])).
  - reflexivity.
  - now left.
  - right. now left.
Defined.

Lemma last_model_wins_witness :
  exists e,
    In e [mdl "User" [fld "id" "Int"; fld "name" "String?"; fld "email" "String"];
          post_b] /\
    name e = "User" /\ incl (fields user_b) (fields e).
Proof.
  apply (last_model_wins [user_a] user_b [post_b]).
  - reflexivity.
  - repeat constructor. discriminate.
  - repeat constructor; simpl; intuition discriminate.
Defined.

Lemma merged_field_order_witness :
  ["id"; "name"; "email"] = first_seen (field_names_of "User" [user_a; post_b; user_b]) /\
  NoDup ["id"; "name"; "email"].
Proof.
  apply (merged_field_order [user_a; post_b; user_b]
           [mdl "User" [fld "id" "Int"; fld "name" "String?"; fld "email" "String"];
            post_b]
           (mdl "User" [fld "id" "Int"; fld "name" "String?"; fld "email" "String"])).
  - reflexivity.
  - repeat constructor; simpl; intuition discriminate.
  - now left.
Defined.

(** ** More on the Section Reducer *)

Section ReducerComposition.

Context {T : Type}.

Lemma reduceSingletons_from (lists : list (list T)) : forall acc,
  fold_left (fun acc l => if (0 <? List.length l)%nat then l else acc) lists acc =
  match reduceSingletons lists with
  | [] => acc
  | r => r
  end.
Proof.
  unfold reduceSingletons.
  induction lists as [|l lists IH]; intros acc; simpl; [reflexivity|].
  rewrite IH, (IH (if (0 <? List.length l)%nat then l else [])).
  destruct (fold_left _ lists []); [|reflexivity].
  destruct l; reflexivity.
Qed.

(** X8: an [enums] that is undefined or null contributes nothing and the
    others are concatenated; reducing the schemas of two runs of fragments
    one after the other is appending the two reductions. *)
Theorem reduceEnums_skips_undefined :
  (forall lists : list (option (list T)),
     reduceEnums lists =
     List.concat (map (fun s => match s with Some es => es | None => [] end) lists)) /\
  (forall lists1 lists2 : list (option (list T)),
     reduceEnums (lists1 ++ lists2) = reduceEnums lists1 ++ reduceEnums lists2).
Proof.
  assert (H : forall lists : list (option (list T)),
            reduceEnums lists =
            List.concat (map (fun s => match s with Some es => es | None => [] end) lists)).
  { intros lists. unfold reduceEnums. now rewrite reduceEnums_from. }
  split; [exact H|].
  intros l1 l2. now rewrite !H, map_app, concat_app.
Qed.

(** X9: the singleton reduction never combines the lists of two fragments:
    its result is empty or is the list of one fragment as that fragment
    supplied it; and over two runs of fragments, the second run decides
    unless it supplies nothing. *)
Theorem reduceSingletons_picks_one :
  (forall lists : list (list T),
     reduceSingletons lists = [] \/ In (reduceSingletons lists) lists) /\
  (forall lists1 lists2 : list (list T),
     reduceSingletons (lists1 ++ lists2) =
     match reduceSingletons lists2 with
     | [] => reduceSingletons lists1
     | r => r
     end).
Proof.
  assert (Happ : forall lists1 lists2 : list (list T),
            reduceSingletons (lists1 ++ lists2) =
            match reduceSingletons lists2 with
            | [] => reduceSingletons lists1
            | r => r
            end).
  { intros l1 l2. unfold reduceSingletons at 1. rewrite fold_left_app.
    apply reduceSingletons_from. }
  split; [|exact Happ].
  intros lists. induction lists as [|l lists IH] using rev_ind; [now left|].
  rewrite Happ. unfold reduceSingletons at 1 3. simpl.
  destruct l as [|x l]; simpl.
  - destruct IH as [IH|IH]; [now left|]. right. apply in_or_app. now left.
  - right. apply in_or_app. right. now left.
Qed.

End ReducerComposition.

(** ** More on the Composition Orchestrator *)

Lemma length_append (s1 s2 : string) :
  String.length (s1 ++ s2) = String.length s1 + String.length s2.
Proof.
  induction s1 as [|c s1 IH]; simpl; [reflexivity|]. now rewrite IH.
Qed.

Lemma truthy_length (p : string) : truthy p = false -> String.length p = 0.
Proof.
  unfold truthy. rewrite negb_false_iff, String.eqb_eq. now intros ->.
Qed.

Lemma truthy_nonempty (p : string) : truthy p = true -> 0 < String.length p.
Proof.
  unfold truthy. destruct p; simpl; [discriminate | lia].
Qed.

Lemma join_length (sep : string) (parts : list string) :
  String.length (join sep parts) =
  list_sum (map String.length parts) + String.length sep * pred (List.length parts).
Proof.
  induction parts as [|p parts IH]; [simpl; lia|].
  destruct parts as [|q parts].
  - simpl. lia.
  - rewrite join_cons, !length_append, IH. simpl. lia.
Qed.

Lemma append_empty_r (s : string) : (s ++ EmptyString)%string = s.
Proof. induction s as [|c s IH]; simpl; [reflexivity | now rewrite IH]. Qed.

Lemma append_assoc (s1 s2 s3 : string) :
  ((s1 ++ s2) ++ s3)%string = (s1 ++ s2 ++ s3)%string.
Proof. induction s1 as [|c s1 IH]; simpl; [reflexivity | now rewrite IH]. Qed.

(** A joined list is its first string followed by every other string with
    the separator before it. *)
Lemma join_first_rest (sep : string) (rest : list string) : forall first,
  join sep (first :: rest) =
  (first ++ flatten (map (fun p => sep ++ p) rest))%string.
Proof.
  induction rest as [|q rest IH]; intros first.
  - simpl. now rewrite append_empty_r.
  - rewrite join_cons, IH. simpl. now rewrite append_assoc.
Qed.

(** X10: the text of a job holds the renderings that are not empty, in their
    order, with three line feeds between neighbours and nothing before the
    first or after the last: it is the first rendering that is not empty
    followed, for every further one, by three line feeds and that rendering,
    and it is empty when there is none.  So its length is the total length
    of the renderings plus three for every section but the first that is not
    empty, and it is empty exactly when every rendering is empty. *)
Theorem output_text_shape (parts : list string) :
  join separator (filter truthy parts) =
    match filter truthy parts with
    | [] => EmptyString
    | first :: rest =>
        (first ++ flatten (map (fun p => LF ++ LF ++ LF ++ p) rest))%string
    end /\
  (forall p, In p (filter truthy parts) <-> In p parts /\ p <> EmptyString) /\
  String.length (join separator (filter truthy parts)) =
    list_sum (map String.length parts)
    + 3 * pred (List.length (filter truthy parts)) /\
  (join separator (filter truthy parts) = EmptyString <->
   Forall (fun p => p = EmptyString) parts).
Proof.
  assert (Hshape : join separator (filter truthy parts) =
            match filter truthy parts with
            | [] => EmptyString
            | first :: rest =>
                (first ++ flatten (map (fun p => LF ++ LF ++ LF ++ p) rest))%string
            end).
  { destruct (filter truthy parts) as [|first rest]; [reflexivity|].
    rewrite join_first_rest. reflexivity. }
  assert (Hsum : list_sum (map String.length (filter truthy parts)) =
                 list_sum (map String.length parts)).
  { clear Hshape. induction parts as [|p parts IH]; simpl; [reflexivity|].
    destruct (truthy p) eqn:E; simpl; rewrite IH; [reflexivity|].
    now rewrite (truthy_length _ E). }
  assert (Hlen : String.length (join separator (filter truthy parts)) =
                 list_sum (map String.length parts)
                 + 3 * pred (List.length (filter truthy parts))).
  { rewrite join_length, Hsum. reflexivity. }
  split; [exact Hshape|]. split; [intros p; apply truthy_filter|].
  split; [exact Hlen|]. split.
  - intros Hempty. rewrite Hempty in Hlen. simpl in Hlen.
    apply Forall_forall. intros p Hp.
    assert (Hle : String.length p <= list_sum (map String.length parts)).
    { clear -Hp. induction parts as [|q parts IH]; [destruct Hp|].
      simpl. destruct Hp as [->|Hp]; [lia|]. specialize (IH Hp). lia. }
    destruct p; [reflexivity | simpl in Hle; lia].
  - intros Hall. rewrite (filter_none truthy parts); [reflexivity|].
    eapply Forall_impl; [|exact Hall]. now intros p ->.
Qed.

Section OrchestratorMore.

Context {P A E D G World : Type}.
Variable resolve : string -> string.
Variable readFile : World -> string -> Result string.
Variable writeFile : World -> string -> string -> World * Result unit.
Variable getDMMF : string -> Result (list (Model P A) * option (list E)).
Variable getConfig : string -> Result (list D * list G).
Variable deserializeDatasources : list D -> Result string.
Variable deserializeGenerators : list G -> Result string.
Variable deserializeModels : list (Model P A) -> Result string.
Variable deserializeEnums : list E -> Result string.

Local Abbreviation getSchema' := (getSchema resolve readFile getDMMF getConfig).
Local Abbreviation load_schemas' := (load_schemas resolve readFile getDMMF getConfig).
Local Abbreviation compose' :=
  (compose deserializeDatasources deserializeGenerators deserializeModels
     deserializeEnums).
Local Abbreviation mix' :=
  (mix resolve readFile writeFile getDMMF getConfig deserializeDatasources
     deserializeGenerators deserializeModels deserializeEnums).
Local Abbreviation mix_all' :=
  (mix_all resolve readFile writeFile getDMMF getConfig deserializeDatasources
     deserializeGenerators deserializeModels deserializeEnums).
Local Abbreviation prismix' :=
  (prismix resolve readFile writeFile getDMMF getConfig deserializeDatasources
     deserializeGenerators deserializeModels deserializeEnums).

Lemma getSchema_world (i : string) (w : World) : fst (getSchema' i w) = w.
Proof. reflexivity. Qed.

Lemma load_schemas_cons (i : string) (rest : list string)
    (acc : list (Schema P A E D G)) (w : World) :
  load_schemas' (i :: rest) acc w =
  match getSchema' i w with
  | (w', Ok schema) => load_schemas' rest (acc ++ [schema]) w'
  | (w', Throw e) => (w', Throw e)
  end.
Proof. reflexivity. Qed.

Lemma load_schemas_ok_from (inputs : list string) :
  forall (acc ss : list (Schema P A E D G)) (w w' : World),
    load_schemas' inputs acc w = (w', Ok ss) ->
    w' = w /\
    exists loaded, ss = acc ++ loaded /\
      Forall2 (fun i s => getSchema' i w = (w, Ok s)) inputs loaded.
Proof.
  induction inputs as [|i inputs IH]; intros acc ss w w'.
  - intros [= <- <-]. split; [reflexivity|]. exists []. split; [|constructor].
    now rewrite app_nil_r.
  - rewrite load_schemas_cons. destruct (getSchema' i w) as [w1 [s|e]] eqn:Hs; [|discriminate].
    assert (Hw1 : w1 = w) by (rewrite <- (getSchema_world i w), Hs; reflexivity).
    subst w1. intros H. destruct (IH _ _ _ _ H) as (-> & loaded & -> & Hall).
    split; [reflexivity|]. exists (s :: loaded). split.
    + now rewrite <- app_assoc.
    + constructor; [exact Hs | exact Hall].
Qed.

(** X11: when loading succeeds, there is one schema per input path, in the
    order of the paths, each the schema [getSchema] returns for its path; the
    file system is read and left as it was. *)
Theorem load_schemas_in_order (inputs : list string) (w w' : World)
    (schemasToMix : list (Schema P A E D G)) :
  load_schemas' inputs [] w = (w', Ok schemasToMix) ->
  w' = w /\
  List.length schemasToMix = List.length inputs /\
  Forall2 (fun i s => getSchema' i w = (w, Ok s)) inputs schemasToMix.
Proof.
  intros H. destruct (load_schemas_ok_from _ _ _ _ _ H) as (-> & loaded & -> & Hall).
  simpl. split; [reflexivity|]. split; [|exact Hall].
  symmetry. now apply (Forall2_length Hall).
Qed.

(** X12: loading fails with the error of the first input path that cannot be
    loaded, whatever the paths after it are. *)
Theorem load_schemas_first_failure (before after : list string) (p : string)
    (w : World) (e : Error) :
  Forall (fun i => exists s, getSchema' i w = (w, Ok s)) before ->
  getSchema' p w = (w, Throw e) ->
  load_schemas' (before ++ p :: after) [] w = (w, Throw e).
Proof.
  intros Hbefore Hp. generalize (@nil (Schema P A E D G)) as acc.
  induction Hbefore as [|i before (s & Hs) _ IH]; intros acc.
  - rewrite app_nil_l, load_schemas_cons. now rewrite Hp.
  - rewrite <- app_comm_cons, load_schemas_cons, Hs. apply IH.
Qed.


(** X14: running the jobs of two lists one after the other in one call is
    running the first list and, when it has completed, the second on the
    file system the first has left; when the first list throws, the second
    is not run. *)
Theorem prismix_app (before after : list MixerOptions) (w : World) :
  prismix' (mkPrismixOptions (before ++ after)) w =
  match prismix' (mkPrismixOptions before) w with
  | (w', Ok _) => prismix' (mkPrismixOptions after) w'
  | (w', Throw e) => (w', Throw e)
  end.
Proof.
  unfold prismix. simpl. revert w.
  induction before as [|m before IH]; intros w; simpl; [reflexivity|].
  destruct (mix' m w) as [w' [[]|e]]; [apply IH | reflexivity].
Qed.

(** X15: a job without input paths still writes its output file: the text
    is what the renderers make of four empty sections, the empty text when
    each of them renders an empty section as the empty string. *)
Theorem mix_no_input (mixer : MixerOptions) (w : World) :
  input mixer = [] ->
  deserializeDatasources [] = Ok EmptyString ->
  deserializeGenerators [] = Ok EmptyString ->
  deserializeModels [] = Ok EmptyString ->
  deserializeEnums [] = Ok EmptyString ->
  mix' mixer w = writeFile w (resolve (output mixer)) EmptyString.
Proof.
  intros Hin H1 H2 H3 H4. unfold mix, compose. rewrite Hin. simpl.
  unfold reduceSingletons, reduceEnums. simpl.
  rewrite H1. simpl. rewrite H2. simpl. rewrite H3. simpl. rewrite H4. reflexivity.
Qed.

End OrchestratorMore.

Lemma load_schemas_in_order_witness :
  disk = disk /\
  List.length [mkSchema [mdl "A" []] (Some ["A"]) ["A"] (@nil string);
               mkSchema [mdl "B" []] (Some ["B"]) ["B"] []]
  = List.length ["a.prisma"; "b.prisma"] /\
  Forall2
    (fun i s => getSchema (fun p => p) fs_read toy_getDMMF toy_getConfig i disk
                = (disk, Ok s))
    ["a.prisma"; "b.prisma"]
    [mkSchema [mdl "A" []] (Some ["A"]) ["A"] (@nil string);
     mkSchema [mdl "B" []] (Some ["B"]) ["B"] []].
Proof.
  apply (load_schemas_in_order (fun p => p) fs_read toy_getDMMF toy_getConfig
           ["a.prisma"; "b.prisma"] disk disk).
  reflexivity.
Defined.

Lemma load_schemas_first_failure_witness :
  load_schemas (fun p => p) fs_read toy_getDMMF toy_getConfig
    (["a.prisma"] ++ "missing.prisma" :: ["b.prisma"]) [] disk
  = (disk, Throw (Rejected "ENOENT")).
Proof.
  apply (load_schemas_first_failure (fun p => p) fs_read toy_getDMMF toy_getConfig
           ["a.prisma"] ["b.prisma"] "missing.prisma" disk (Rejected "ENOENT")).
  - repeat constructor. eexists. reflexivity.
  - reflexivity.
Defined.

Lemma mix_no_input_witness :
  mix (fun p => p) fs_read fs_write toy_getDMMF toy_getConfig
    toy_render toy_render toy_render_models toy_render
    (mkMixerOptions [] "empty.prisma") disk
  = fs_write disk "empty.prisma" EmptyString.
Proof.
  apply (mix_no_input (fun p => p) fs_read fs_write toy_getDMMF toy_getConfig
           toy_render toy_render toy_render_models toy_render
           (mkMixerOptions [] "empty.prisma") disk); reflexivity.
Defined.

